(** * workers-proxy: the request handler of [src/index.ts]

    The worker exports a single [fetch] handler.  It answers CORS
    preflights, greets on the root path, validates the target URL that
    the request path encodes, forwards the request to that target and
    re-wraps the upstream response (or a JSON error) for the caller.

    The handler is embedded as a program in a small effect monad whose
    only effects are the ones the source has: the outbound [fetch], the
    [console.error] of the catch block, and exceptions.  The runtime
    classes the handler uses ([Headers], [Response], [JSON.stringify])
    are modelled after the Fetch and ECMAScript standards as far as the
    handler exercises them: [Headers] normalises the values it stores
    and combines them on iteration, the constructor of [Response]
    throws for a status or a body that it refuses.  The runtime's URL
    parser is a parameter. *)

From Stdlib Require Import String Ascii List Bool ZArith Lia.
From Stdlib Require Import Permutation.
From ExtLib Require Import Structures.Monad Structures.MonadExc.
Import ListNotations.
Local Open Scope list_scope.
Local Open Scope string_scope.

(** ** Strings *)

(** [String.prototype.toLowerCase] on the ASCII range (header names are
    HTTP tokens, hence ASCII). *)
Definition lower_ascii (c : ascii) : ascii :=
  let n := nat_of_ascii c in
  if (65 <=? n)%nat && (n <=? 90)%nat then ascii_of_nat (n + 32) else c.

Fixpoint toLowerCase (s : string) : string :=
  match s with
  | EmptyString => EmptyString
  | String c r => String (lower_ascii c) (toLowerCase r)
  end.

(** [s.slice(1)]: the string without its first code unit. *)
Definition slice1 (s : string) : string :=
  match s with
  | EmptyString => EmptyString
  | String _ r => r
  end.

(** [Array.prototype.includes] on an array of strings. *)
Definition includes (xs : list string) (x : string) : bool :=
  existsb (String.eqb x) xs.

Arguments includes : simpl never.

(** [Array.prototype.join] with a separator. *)
Fixpoint join (sep : string) (xs : list string) : string :=
  match xs with
  | [] => ""
  | [x] => x
  | x :: rest => x ++ sep ++ join sep rest
  end.

(** ** The [Headers] class

    A header list in the sense of the Fetch standard: an ordered list of
    name/value pairs whose names keep the case they were written with
    and are matched byte-case-insensitively. *)
Module Headers.

Definition t := list (string * string).

Definition same_name (a b : string) : bool :=
  toLowerCase a =? toLowerCase b.

Definition named (name : string) (kv : string * string) : bool :=
  same_name (fst kv) name.

(** HTTP whitespace: tab, line feed, carriage return, space. *)
Definition is_whitespace (c : ascii) : bool :=
  let n := nat_of_ascii c in
  (n =? 9)%nat || (n =? 10)%nat || (n =? 13)%nat || (n =? 32)%nat.

Fixpoint strip_leading (s : string) : string :=
  match s with
  | EmptyString => EmptyString
  | String c r => if is_whitespace c then strip_leading r else s
  end.

Fixpoint strip_trailing (s : string) : string :=
  match s with
  | EmptyString => EmptyString
  | String c r =>
      match strip_trailing r with
      | EmptyString => if is_whitespace c then EmptyString else String c EmptyString
      | r' => String c r'
      end
  end.

(** A string that does not start with whitespace. *)
Definition starts_plain (s : string) : Prop :=
  match s with
  | EmptyString => True
  | String c _ => is_whitespace c = false
  end.

(** Normalising a value: [set] and [append] store a value without its
    leading and trailing HTTP whitespace. *)
Definition normalize (value : string) : string :=
  strip_trailing (strip_leading value).

(** The values of all headers called [name], in list order. *)
Definition values (h : t) (name : string) : list string :=
  map snd (filter (named name) h).

Definition has (h : t) (name : string) : bool :=
  existsb (named name) h.

(** [get]: the values joined by [", "], or [null]. *)
Definition get (h : t) (name : string) : option string :=
  match values h name with
  | [] => None
  | vs => Some (join ", " vs)
  end.

(** [getSetCookie]. *)
Definition getSetCookie (h : t) : list string := values h "set-cookie".

Definition delete (h : t) (name : string) : t :=
  filter (fun kv => negb (named name kv)) h.

(** The header-list operation under [set]: overwrite the first header
    called [name] and drop the others, or append when there is none. *)
Fixpoint set_header (h : t) (name value : string) : t :=
  match h with
  | [] => [(name, value)]
  | (k, v) :: rest =>
      if same_name k name then (k, value) :: delete rest name
      else (k, v) :: set_header rest name value
  end.

(** [set]: the value is normalised, then set.  The names and values
    the handler passes are header names and header values (they come
    from a [Headers] object, a literal, or a serialised URL), so the
    check that throws for other strings never fires and is left out. *)
Definition set (h : t) (name value : string) : t :=
  set_header h name (normalize value).

(** [append]: the normalised value in a new header at the end, spelled
    like the first header of that name when there is one. *)
Definition append (h : t) (name value : string) : t :=
  let name' := match find (named name) h with
               | Some (k, _) => k
               | None => name
               end in
  (h ++ [(name', normalize value)])%list.

(** Filling a header list from a sequence of pairs or from the
    entries of an object literal. *)
Definition fill (h : t) (init : list (string * string)) : t :=
  fold_left (fun acc kv => append acc (fst kv) (snd kv)) init h.

(** [new Headers(init)]. *)
Definition new (init : list (string * string)) : t := fill [] init.

(** Insertion sort by code-unit order. *)
Fixpoint insert (x : string) (l : list string) : list string :=
  match l with
  | [] => [x]
  | y :: r => if (x <=? y)%string then x :: l else y :: insert x r
  end.

Definition sort (l : list string) : list string :=
  fold_right insert [] l.

(** The sorted, duplicate-free list of lower-cased names. *)
Definition names (h : t) : list string :=
  sort (nodup string_dec (map (fun kv => toLowerCase (fst kv)) h)).

(** [entries()]: the iteration order of a [Headers] object ("sort and
    combine"): one pair per lower-cased name with the combined value,
    except [set-cookie], whose values are yielded one by one. *)
Definition entries_of (h : t) (name : string) : list (string * string) :=
  if name =? "set-cookie" then map (pair name) (values h name)
  else match get h name with
       | Some v => [(name, v)]
       | None => []
       end.

Definition entries (h : t) : list (string * string) :=
  flat_map (entries_of h) (names h).

End Headers.

(** ** [JSON.stringify] on an object of string properties *)
Module JSON.

Definition dquote : string := String (ascii_of_nat 34) "".
Definition backslash : string := String (ascii_of_nat 92) "".

Definition hex_digit (n : nat) : string :=
  String (nth n (list_ascii_of_string "0123456789abcdef") "0"%char) "".

(** The escape of one code unit inside a JSON string literal
    (QuoteJSONString): the two-character escapes, [\u00xx] for the
    other control characters, the character itself otherwise. *)
Definition escape (c : ascii) : string :=
  let n := nat_of_ascii c in
  if (n =? 8)%nat then backslash ++ "b"
  else if (n =? 9)%nat then backslash ++ "t"
  else if (n =? 10)%nat then backslash ++ "n"
  else if (n =? 12)%nat then backslash ++ "f"
  else if (n =? 13)%nat then backslash ++ "r"
  else if (n =? 34)%nat then backslash ++ dquote
  else if (n =? 92)%nat then backslash ++ backslash
  else if (n <? 32)%nat then
    backslash ++ "u00" ++ hex_digit (n / 16) ++ hex_digit (n mod 16)
  else String c "".

Fixpoint escape_all (s : string) : string :=
  match s with
  | EmptyString => ""
  | String c r => escape c ++ escape_all r
  end.

Definition quote (s : string) : string := dquote ++ escape_all s ++ dquote.

(** An object literal whose properties are strings, in property order. *)
Definition object := list (string * string).

Definition property (kv : string * string) : string :=
  quote (fst kv) ++ ":" ++ quote (snd kv).

Definition stringify (o : object) : string :=
  "{" ++ join "," (map property o) ++ "}".

(** Property access [o.key] ([None] for [undefined]). *)
Definition prop (o : object) (key : string) : option string :=
  option_map snd (find (fun kv => fst kv =? key) o).

(** *** Reading a payload back

    [parse] reads a JSON text that is an object whose members are all
    strings, as a client of the worker reads an error payload.  It is
    used to state what a body says, never by the handler. *)

Definition hex_value (c : ascii) : option nat :=
  let n := nat_of_ascii c in
  if (48 <=? n)%nat && (n <=? 57)%nat then Some (n - 48)
  else if (97 <=? n)%nat && (n <=? 102)%nat then Some (n - 87)
  else if (65 <=? n)%nat && (n <=? 70)%nat then Some (n - 55)
  else None.

(** The character written [\uABCD], for the ASCII range. *)
Definition unicode_escape (a b c d : ascii) : option ascii :=
  match hex_value a, hex_value b, hex_value c, hex_value d with
  | Some x, Some y, Some z, Some w =>
      let n := ((x * 16 + y) * 16 + z) * 16 + w in
      if (n <? 128)%nat then Some (ascii_of_nat n) else None
  | _, _, _, _ => None
  end.

Definition push (c : ascii) (r : option (string * string)) : option (string * string) :=
  match r with
  | Some (t, rest) => Some (String c t, rest)
  | None => None
  end.

(** The content of a string literal whose opening quote has been read,
    and the text after its closing quote. *)
Fixpoint unquote (s : string) : option (string * string) :=
  match s with
  | EmptyString => None
  | String c r =>
      let n := nat_of_ascii c in
      if (n =? 34)%nat then Some ("", r)
      else if (n =? 92)%nat then
        match r with
        | String e r1 =>
            let m := nat_of_ascii e in
            if (m =? 98)%nat then push (ascii_of_nat 8) (unquote r1)
            else if (m =? 116)%nat then push (ascii_of_nat 9) (unquote r1)
            else if (m =? 110)%nat then push (ascii_of_nat 10) (unquote r1)
            else if (m =? 102)%nat then push (ascii_of_nat 12) (unquote r1)
            else if (m =? 114)%nat then push (ascii_of_nat 13) (unquote r1)
            else if (m =? 34)%nat then push e (unquote r1)
            else if (m =? 92)%nat then push e (unquote r1)
            else if (m =? 47)%nat then push e (unquote r1)
            else if (m =? 117)%nat then
              match r1 with
              | String a (String b (String c' (String d r2))) =>
                  match unicode_escape a b c' d with
                  | Some u => push u (unquote r2)
                  | None => None
                  end
              | _ => None
              end
            else None
        | EmptyString => None
        end
      else if (n <? 32)%nat then None
      else push c (unquote r)
  end.

(** The members of an object after its opening brace, up to the end of
    the text. *)
Fixpoint members (fuel : nat) (s : string) : option object :=
  match fuel with
  | O => None
  | S fuel' =>
      match s with
      | String q r =>
          if negb (nat_of_ascii q =? 34)%nat then None else
          match unquote r with
          | Some (key, String colon (String q' r')) =>
              if negb ((nat_of_ascii colon =? 58)%nat && (nat_of_ascii q' =? 34)%nat)
              then None else
              match unquote r' with
              | Some (value, String sep r'') =>
                  if (nat_of_ascii sep =? 125)%nat then
                    if r'' =? "" then Some [(key, value)] else None
                  else if (nat_of_ascii sep =? 44)%nat then
                    option_map (cons (key, value)) (members fuel' r'')
                  else None
              | _ => None
              end
          | _ => None
          end
      | EmptyString => None
      end
  end.

Definition parse (s : string) : option object :=
  match s with
  | String open r =>
      if negb (nat_of_ascii open =? 123)%nat then None
      else if r =? "}" then Some []
      else members (String.length r) r
  | EmptyString => None
  end.

End JSON.

(** ** URLs, requests and responses *)

(** The fields of a parsed [URL] that the handler reads. *)
Module URL.
Record t := {
  href : string;
  origin : string;
  protocol : string;
  host : string;
  pathname : string;
  search : string
}.
End URL.

(** A [ReadableStream] of bytes, taken by its content. *)
Definition ReadableStream := list Byte.byte.

(** What a [catch] clause can receive: an [Error] with its message, or
    some other value. *)
Inductive Thrown :=
| ErrorObject (message : string)
| OtherValue.

(** What a [Response] can be built from. *)
Inductive BodyInit :=
| FromString (s : string)
| FromStream (rs : ReadableStream).

Module Request.
Record t := {
  method : string;
  url : string;
  headers : Headers.t;
  body : option ReadableStream
}.
End Request.

(** The [init] argument of the outbound [fetch]. *)
Module RequestInit.
Record t := {
  method : string;
  headers : Headers.t;
  body : option ReadableStream;
  redirect : string
}.
End RequestInit.

Module Response.

Record t := {
  status : Z;
  statusText : string;
  headers : Headers.t;
  body : option ReadableStream
}.

Record init := {
  init_status : option Z;
  init_statusText : option string;
  init_headers : list (string * string)
}.

(** An [init] with only [headers]. *)
Definition only_headers (hs : list (string * string)) : init :=
  {| init_status := None; init_statusText := None; init_headers := hs |}.

Definition extract (b : BodyInit) : ReadableStream :=
  match b with
  | FromString s => list_byte_of_string s
  | FromStream rs => rs
  end.

(** The statuses of responses that have no body. *)
Definition null_body_status (status : Z) : bool :=
  existsb (Z.eqb status) [101; 103; 204; 205; 304]%Z.

(** The checks of the constructor: a [RangeError] for a status outside
    200 to 599, a [TypeError] for a body with a null body status.  The
    messages are the runtime's; no property below depends on them. *)
Definition check (status : Z) (with_body : bool) : option Thrown :=
  if negb ((200 <=? status)%Z && (status <=? 599)%Z) then
    Some (ErrorObject
      "Responses may only be constructed with status codes in the range 200 to 599, inclusive.")
  else if with_body && null_body_status status then
    Some (ErrorObject
      "Response with null body status (101, 204, 205, or 304) cannot have a body.")
  else None.

(** The response that the constructor builds when its checks pass:
    status 200 and an empty status text unless given; a string body
    brings its own [Content-Type] when the headers have none. *)
Definition build (b : option BodyInit) (i : init) : t :=
  let hs := Headers.new (init_headers i) in
  let hs := match b with
            | Some (FromString _) =>
                if Headers.has hs "Content-Type" then hs
                else Headers.append hs "Content-Type" "text/plain;charset=UTF-8"
            | _ => hs
            end in
  {| status := match init_status i with Some s => s | None => 200%Z end;
     statusText := match init_statusText i with Some s => s | None => "" end;
     headers := hs;
     body := option_map extract b |}.

(** [new Response(body, init)]: the response, or what the constructor
    throws. *)
Definition new (b : option BodyInit) (i : init) : Thrown + t :=
  match check (match init_status i with Some s => s | None => 200%Z end)
          (match b with Some _ => true | None => false end) with
  | Some e => inl e
  | None => inr (build b i)
  end.

(** What the constructor throws when given the status and the body of
    a response [r], as on line 107; [None] when it accepts them. *)
Definition refusal (r : t) : option Thrown :=
  check (status r) (match body r with Some _ => true | None => false end).

(** [response.text()]. *)
Definition text (r : t) : string :=
  match body r with
  | Some rs => string_of_list_byte rs
  | None => ""
  end.

(** [response.json()], for a body that is an object of strings. *)
Definition json (r : t) : option JSON.object := JSON.parse (text r).

End Response.

(** ** Effects *)

(** How the promise of the outbound [fetch] settles. *)
Inductive Settled :=
| Fulfilled (r : Response.t)
| Rejected (e : Thrown).

(** Programs of the handler: they return, throw, wait for an outbound
    [fetch] to settle, or write to the console and go on. *)
Inductive Eff (A : Type) : Type :=
| Return (a : A)
| Throw (e : Thrown)
| Fetch (input : string) (init : RequestInit.t) (k : Settled -> Eff A)
| ConsoleError (label : string) (e : Thrown) (k : Eff A).

Arguments Return {A} a.
Arguments Throw {A} e.
Arguments Fetch {A} input init k.
Arguments ConsoleError {A} label e k.

Fixpoint bind {A B : Type} (m : Eff A) (f : A -> Eff B) : Eff B :=
  match m with
  | Return a => f a
  | Throw e => Throw e
  | Fetch input init k => Fetch input init (fun s => bind (k s) f)
  | ConsoleError label e k => ConsoleError label e (bind k f)
  end.

(** [try { m } catch (e) { h e }]. *)
Fixpoint try_catch {A : Type} (m : Eff A) (h : Thrown -> Eff A) : Eff A :=
  match m with
  | Return a => Return a
  | Throw e => h e
  | Fetch input init k => Fetch input init (fun s => try_catch (k s) h)
  | ConsoleError label e k => ConsoleError label e (try_catch k h)
  end.

#[export] Instance Monad_Eff : Monad Eff :=
  {| ret := @Return; Monad.bind := @bind |}.

#[export] Instance MonadExc_Eff : MonadExc Thrown Eff :=
  {| raise := @Throw; catch := @try_catch |}.

(** [await fetch(input, init)]: a rejection is thrown at the [await]. *)
Definition await_fetch (input : string) (init : RequestInit.t) : Eff Response.t :=
  Fetch input init (fun s =>
    match s with
    | Fulfilled r => Return r
    | Rejected e => Throw e
    end).

Definition console_error (label : string) (e : Thrown) : Eff unit :=
  ConsoleError label e (Return tt).

(** One run of a program against a network: how the handler's promise
    settles, the outbound requests made, and the console output. *)
Record Run (A : Type) := {
  outcome : Thrown + A;
  dispatched : list (string * RequestInit.t);
  logged : list (string * Thrown)
}.

Arguments outcome {A} r.
Arguments dispatched {A} r.
Arguments logged {A} r.

Fixpoint run {A : Type} (network : string -> RequestInit.t -> Settled)
    (m : Eff A) : Run A :=
  match m with
  | Return a => {| outcome := inr a; dispatched := []; logged := [] |}
  | Throw e => {| outcome := inl e; dispatched := []; logged := [] |}
  | Fetch input init k =>
      let r := run network (k (network input init)) in
      {| outcome := outcome r;
         dispatched := (input, init) :: dispatched r;
         logged := logged r |}
  | ConsoleError label e k =>
      let r := run network k in
      {| outcome := outcome r;
         dispatched := dispatched r;
         logged := (label, e) :: logged r |}
  end.

(** ** The handler *)

Import MonadNotation.
Local Open Scope monad_scope.

Section Worker.

(** The runtime's URL parser: [parseURL s] is the URL that
    [new URL(s)] builds, [None] when it throws. *)
Variable parseURL : string -> option URL.t.

Definition new_URL (s : string) : Eff URL.t :=
  match parseURL s with
  | Some u => ret u
  | None => raise (ErrorObject "Invalid URL")
  end.

(** [new Response(body, init)] in a program: the constructor returns
    or throws. *)
Definition new_Response (b : option BodyInit) (i : Response.init) : Eff Response.t :=
  match Response.new b i with
  | inr r => ret r
  | inl e => raise e
  end.

(** The headers that are not forwarded (line 78). *)
Definition skipped : list string :=
  ["host"; "connection"; "keep-alive"; "cf-connecting-ip"; "cf-ray"; "cf-visitor"].

(** The body of the loop of lines 76-81. *)
Definition copy_header (proxyHeaders : Headers.t) (entry : string * string)
    : Headers.t :=
  let (key, value) := entry in
  if negb (includes skipped (toLowerCase key))
  then Headers.set proxyHeaders key value
  else proxyHeaders.

Definition fetch (req : Request.t) : Eff Response.t :=
  url <- new_URL (Request.url req) ;;
  (* Handle CORS preflight requests *)
  if Request.method req =? "OPTIONS" then
    (new_Response None (Response.only_headers
           [ ("Access-Control-Allow-Origin", "*");
             ("Access-Control-Allow-Methods", "GET, POST, PUT, DELETE, PATCH, OPTIONS");
             ("Access-Control-Allow-Headers", "*");
             ("Access-Control-Max-Age", "86400") ]))
  else
  (* Get the target URL from the path (everything after the first /) *)
  let targetUrl := slice1 (URL.pathname url) ++ URL.search url in
  (* Handle root path - show hello world *)
  if targetUrl =? "" then
    (new_Response (Some (FromString "Hello World")) (Response.only_headers
           [ ("Content-Type", "text/plain; charset=utf-8") ]))
  else
  (* Validate that the target URL is valid *)
  match parseURL targetUrl with
  | None =>
      (new_Response
             (Some (FromString (JSON.stringify
                [ ("error", "Invalid URL");
                  ("message", "Please provide a valid URL to proxy");
                  ("usage", URL.origin url ++ "/https://example.com") ])))
             {| Response.init_status := Some 400%Z;
                Response.init_statusText := None;
                Response.init_headers :=
                  [ ("Content-Type", "application/json");
                    ("Access-Control-Allow-Origin", "*") ] |})
  | Some target =>
  (* Only allow http and https protocols *)
  if negb (includes ["http:"; "https:"] (URL.protocol target)) then
    (new_Response
           (Some (FromString (JSON.stringify
              [ ("error", "Invalid Protocol");
                ("message", "Only HTTP and HTTPS protocols are supported") ])))
           {| Response.init_status := Some 400%Z;
              Response.init_statusText := None;
              Response.init_headers :=
                [ ("Content-Type", "application/json");
                  ("Access-Control-Allow-Origin", "*") ] |})
  else
  catch
    ((* Copy relevant headers from the original request *)
     let proxyHeaders :=
       fold_left copy_header (Headers.entries (Request.headers req)) (Headers.new []) in
     (* Set the host header to the target host *)
     let proxyHeaders := Headers.set proxyHeaders "Host" (URL.host target) in
     (* Make the proxied request *)
     proxyResponse <- await_fetch (URL.href target)
       {| RequestInit.method := Request.method req;
          RequestInit.headers := proxyHeaders;
          RequestInit.body :=
            if negb (Request.method req =? "GET") && negb (Request.method req =? "HEAD")
            then Request.body req else None;
          RequestInit.redirect := "follow" |} ;;
     (* Prepare response headers *)
     let responseHeaders := Headers.new (Headers.entries (Response.headers proxyResponse)) in
     (* Add CORS headers *)
     let responseHeaders := Headers.set responseHeaders "Access-Control-Allow-Origin" "*" in
     let responseHeaders := Headers.set responseHeaders "Access-Control-Allow-Methods"
                              "GET, POST, PUT, DELETE, PATCH, OPTIONS" in
     let responseHeaders := Headers.set responseHeaders "Access-Control-Allow-Headers" "*" in
     (* Add proxy information header *)
     let responseHeaders := Headers.set responseHeaders "X-Proxied-By" "Cloudflare-Workers-Proxy" in
     let responseHeaders := Headers.set responseHeaders "X-Target-URL" (URL.href target) in
     (* Return the proxied response *)
     (new_Response (option_map FromStream (Response.body proxyResponse))
            {| Response.init_status := Some (Response.status proxyResponse);
               Response.init_statusText := Some (Response.statusText proxyResponse);
               Response.init_headers := Headers.entries responseHeaders |}))
    (fun error =>
       console_error "Proxy error:" error ;;
       (new_Response
              (Some (FromString (JSON.stringify
                 [ ("error", "Proxy Error");
                   ("message", match error with
                               | ErrorObject message => message
                               | OtherValue => "Failed to proxy request"
                               end);
                   ("target", URL.href target) ])))
              {| Response.init_status := Some 502%Z;
                 Response.init_statusText := None;
                 Response.init_headers :=
                   [ ("Content-Type", "application/json");
                     ("Access-Control-Allow-Origin", "*") ] |}))
  end.

(** *** Vocabulary of the properties *)

(** The effective target of a request URL: the path without its
    leading separator, followed by the query string (line 22). *)
Definition effective_target (url : URL.t) : string :=
  slice1 (URL.pathname url) ++ URL.search url.

(** The request passes target resolution: it is no preflight, its
    effective target is not empty and parses to [target], whose scheme
    is [http] or [https]. *)
Definition resolves (req : Request.t) (url target : URL.t) : Prop :=
  parseURL (Request.url req) = Some url /\
  (Request.method req =? "OPTIONS") = false /\
  (effective_target url =? "") = false /\
  parseURL (effective_target url) = Some target /\
  includes ["http:"; "https:"] (URL.protocol target) = true.

End Worker.

(** The outbound request a program dispatches first, if any. *)
Fixpoint dispatch_of {A : Type} (m : Eff A) : option (string * RequestInit.t) :=
  match m with
  | Fetch input init _ => Some (input, init)
  | ConsoleError _ _ k => dispatch_of k
  | Return _ | Throw _ => None
  end.

(** The last element of a list of values. *)
Fixpoint last_value (vs : list string) : option string :=
  match vs with
  | [] => None
  | [v] => Some v
  | _ :: rest => last_value rest
  end.

Section Handling.

Variable parseURL : string -> option URL.t.

(** The ways a request with a well-formed URL is handled, each with
    the whole run it gives: answered without a dispatch, or dispatched
    once, with the dispatch fulfilled by a response that is wrapped,
    fulfilled by a response that the constructor refuses, or rejected. *)
Inductive Handled (network : string -> RequestInit.t -> Settled)
    (req : Request.t) (url : URL.t) : Prop :=
| HandledWithout (resp : Response.t) :
    (forall target, ~ resolves parseURL req url target) ->
    run network (fetch parseURL req)
      = {| outcome := inr resp; dispatched := []; logged := [] |} ->
    Headers.get (Response.headers resp) "X-Proxied-By" = None ->
    Headers.get (Response.headers resp) "X-Target-URL" = None ->
    Handled network req url
| HandledFulfilled (target : URL.t) (init : RequestInit.t) (up resp : Response.t) :
    resolves parseURL req url target ->
    dispatch_of (fetch parseURL req) = Some (URL.href target, init) ->
    network (URL.href target) init = Fulfilled up ->
    Response.refusal up = None ->
    run network (fetch parseURL req)
      = {| outcome := inr resp;
           dispatched := [(URL.href target, init)];
           logged := [] |} ->
    Headers.get (Response.headers resp) "X-Proxied-By" = Some "Cloudflare-Workers-Proxy" ->
    Headers.get (Response.headers resp) "X-Target-URL"
      = Some (Headers.normalize (URL.href target)) ->
    Handled network req url
| HandledRefused (target : URL.t) (init : RequestInit.t) (up : Response.t)
    (error : Thrown) (resp : Response.t) :
    resolves parseURL req url target ->
    dispatch_of (fetch parseURL req) = Some (URL.href target, init) ->
    network (URL.href target) init = Fulfilled up ->
    Response.refusal up = Some error ->
    run network (fetch parseURL req)
      = {| outcome := inr resp;
           dispatched := [(URL.href target, init)];
           logged := [("Proxy error:", error)] |} ->
    Response.status resp = 502%Z ->
    Headers.get (Response.headers resp) "X-Proxied-By" = None ->
    (exists message : string,
        Response.json resp = Some [ ("error", "Proxy Error");
                                    ("message", message);
                                    ("target", URL.href target) ]) ->
    Handled network req url
| HandledRejected (target : URL.t) (init : RequestInit.t) (error : Thrown)
    (resp : Response.t) :
    resolves parseURL req url target ->
    dispatch_of (fetch parseURL req) = Some (URL.href target, init) ->
    network (URL.href target) init = Rejected error ->
    run network (fetch parseURL req)
      = {| outcome := inr resp;
           dispatched := [(URL.href target, init)];
           logged := [("Proxy error:", error)] |} ->
    Response.status resp = 502%Z ->
    Headers.get (Response.headers resp) "X-Proxied-By" = None ->
    (exists message : string,
        Response.json resp = Some [ ("error", "Proxy Error");
                                    ("message", message);
                                    ("target", URL.href target) ]) ->
    Handled network req url.

End Handling.

(** ** A parser for the examples

    [Sample.parse] reads strings of the plain shape
    [scheme://host/path?query]; it stands for the runtime's parser on the
    concrete requests of the examples below and is no part of the
    handler. *)
Module Sample.

Fixpoint break (p : ascii -> bool) (s : string) : string * string :=
  match s with
  | EmptyString => ("", "")
  | String c r =>
      if p c then ("", s)
      else let (a, b) := break p r in (String c a, b)
  end.

Definition is_alpha (c : ascii) : bool :=
  let n := nat_of_ascii (lower_ascii c) in (97 <=? n)%nat && (n <=? 122)%nat.

Fixpoint all_alpha (s : string) : bool :=
  match s with
  | EmptyString => true
  | String c r => is_alpha c && all_alpha r
  end.

Definition one_of (cs : string) (c : ascii) : bool :=
  existsb (Ascii.eqb c) (list_ascii_of_string cs).

Definition parse (s : string) : option URL.t :=
  let (scheme, rest) := break (one_of ":") s in
  match scheme, rest with
  | String _ _, String _ (String "/" (String "/" r)) =>
      if all_alpha scheme then
        let (host, r1) := break (one_of "/?#") r in
        let (path, r2) := break (one_of "?#") r1 in
        let (query, _) := break (one_of "#") r2 in
        let scheme := toLowerCase scheme in
        let path := if path =? "" then "/" else path in
        let query := if query =? "?" then "" else query in
        Some {| URL.href := scheme ++ "://" ++ host ++ path ++ query;
                URL.origin := scheme ++ "://" ++ host;
                URL.protocol := scheme ++ ":";
                URL.host := host;
                URL.pathname := path;
                URL.search := query |}
      else None
  | _, _ => None
  end.

(** A network on which every request is answered [200 OK] with one
    header and a three-byte body. *)
Definition upstream_ok : Response.t :=
  {| Response.status := 200;
     Response.statusText := "OK";
     Response.headers := [("Content-Type", "application/json"); ("ETag", "abc")];
     Response.body := Some [Byte.x7b; Byte.x7d; Byte.x0a] |}.

Definition reachable (_ : string) (_ : RequestInit.t) : Settled :=
  Fulfilled upstream_ok.

(** A network whose every answer has the status 999. *)
Definition upstream_999 : Response.t :=
  {| Response.status := 999;
     Response.statusText := "Request denied";
     Response.headers := [("Content-Type", "text/html")];
     Response.body := Some [Byte.x0a] |}.

Definition denying (_ : string) (_ : RequestInit.t) : Settled :=
  Fulfilled upstream_999.



(** A network on which every request fails. *)
Definition unreachable (_ : string) (_ : RequestInit.t) : Settled :=
  Rejected (ErrorObject "Network connection lost.").

Definition request (method url : string) (headers : Headers.t)
    (body : option ReadableStream) : Request.t :=
  {| Request.method := method; Request.url := url;
     Request.headers := headers; Request.body := body |}.

(** The worker's own URL for a request of the given path and query. *)
Definition here (pathname search : string) : URL.t :=
  {| URL.href := "https://proxy.dev" ++ pathname ++ search;
     URL.origin := "https://proxy.dev";
     URL.protocol := "https:";
     URL.host := "proxy.dev";
     URL.pathname := pathname;
     URL.search := search |}.

Definition api : URL.t :=
  {| URL.href := "https://api.example.com/users/42?x=1";
     URL.origin := "https://api.example.com";
     URL.protocol := "https:";
     URL.host := "api.example.com";
     URL.pathname := "/users/42";
     URL.search := "?x=1" |}.

Definition files : URL.t :=
  {| URL.href := "ftp://files.example.com/a.txt";
     URL.origin := "ftp://files.example.com";
     URL.protocol := "ftp:";
     URL.host := "files.example.com";
     URL.pathname := "/a.txt";
     URL.search := "" |}.

Definition browser_headers : Headers.t :=
  [ ("Host", "proxy.dev"); ("Connection", "keep-alive");
    ("CF-Ray", "8a1b2c3d4e5f"); ("Accept", "application/json");
    ("X-Custom", "v") ].

Definition get_users : Request.t :=
  request "GET" "https://proxy.dev/https://api.example.com/users/42?x=1"
    browser_headers None.

(** What is dispatched for [get_users]. *)
Definition forwarded_get_users : RequestInit.t :=
  {| RequestInit.method := "GET";
     RequestInit.headers :=
       [ ("accept", "application/json"); ("x-custom", "v");
         ("Host", "api.example.com") ];
     RequestInit.body := None;
     RequestInit.redirect := "follow" |}.

(** The answer to [get_users] when the network is down. *)
Definition bad_gateway : Response.t :=
  Response.build
    (Some (FromString (JSON.stringify
       [ ("error", "Proxy Error");
         ("message", "Network connection lost.");
         ("target", "https://api.example.com/users/42?x=1") ])))
    {| Response.init_status := Some 502%Z;
       Response.init_statusText := None;
       Response.init_headers :=
         [ ("Content-Type", "application/json");
           ("Access-Control-Allow-Origin", "*") ] |}.

Definition post_users : Request.t :=
  request "POST" "https://proxy.dev/https://api.example.com/users/42?x=1"
    browser_headers (Some [Byte.x7b; Byte.x7d]).

Definition delete_user : Request.t :=
  request "DELETE" "https://proxy.dev/https://api.example.com/users/42?x=1"
    browser_headers None.

Definition get_tagged : Request.t :=
  request "GET" "https://proxy.dev/https://api.example.com/users/42?x=1"
    [("X-Tag", "a"); ("X-Tag", "b")] None.

Definition get_tagged_empty : Request.t :=
  request "GET" "https://proxy.dev/https://api.example.com/users/42?x=1"
    [("X-Tag", "a"); ("X-Tag", "")] None.

Definition preflight : Request.t :=
  request "OPTIONS" "https://proxy.dev/https://api.example.com/users/42?x=1"
    browser_headers None.

Definition get_root : Request.t :=
  request "GET" "https://proxy.dev/" browser_headers None.

Definition get_root_query : Request.t :=
  request "GET" "https://proxy.dev/?x=1" browser_headers None.

Definition get_not_a_url : Request.t :=
  request "GET" "https://proxy.dev/not-a-url" browser_headers None.

Definition get_ftp : Request.t :=
  request "GET" "https://proxy.dev/ftp://files.example.com/a.txt"
    browser_headers None.

End Sample.

(** * Properties *)

(** ** Strings *)

Lemma lower_ascii_idem (c : ascii) : lower_ascii (lower_ascii c) = lower_ascii c.
Proof. destruct c as [[] [] [] [] [] [] [] []]; reflexivity. Qed.

Lemma toLowerCase_idem (s : string) : toLowerCase (toLowerCase s) = toLowerCase s.
Proof.
  induction s as [|c r IH]; simpl; [reflexivity|].
  now rewrite lower_ascii_idem, IH.
Qed.

(** ** JSON texts *)
Module JSONFacts.
Import JSON.

Lemma append_assoc (a b c : string) : (a ++ b) ++ c = a ++ (b ++ c).
Proof. induction a as [|x a IH]; simpl; [reflexivity | now rewrite IH]. Qed.

Lemma length_append (a b : string) :
  String.length (a ++ b) = String.length a + String.length b.
Proof. induction a as [|x a IH]; simpl; [reflexivity | now rewrite IH]. Qed.

(** Reading the escape of a character gives the character back. *)
Lemma unquote_escape (c : ascii) (tail : string) :
  unquote (escape c ++ tail) = push c (unquote tail).
Proof. destruct c as [[] [] [] [] [] [] [] []]; reflexivity. Qed.

Lemma unquote_escape_all (s rest : string) :
  unquote (escape_all s ++ String (ascii_of_nat 34) rest) = Some (s, rest).
Proof.
  induction s as [|c s IH]; [reflexivity|].
  cbn [escape_all]. rewrite append_assoc, unquote_escape, IH. reflexivity.
Qed.

Lemma members_property (fuel : nat) (k v : string) (rest : string) :
  members (S fuel) (property (k, v) ++ rest)
  = match rest with
    | String sep r =>
        if (nat_of_ascii sep =? 125)%nat then
          if r =? "" then Some [(k, v)] else None
        else if (nat_of_ascii sep =? 44)%nat then
          option_map (cons (k, v)) (members fuel r)
        else None
    | EmptyString => None
    end.
Proof.
  unfold property, quote, dquote. cbn [fst snd].
  rewrite !append_assoc. cbn [append members].
  change (nat_of_ascii (ascii_of_nat 34) =? 34)%nat with true.
  cbn [negb]. rewrite unquote_escape_all.
  change (nat_of_ascii ":" =? 58)%nat with true.
  change (nat_of_ascii (ascii_of_nat 34) =? 34)%nat with true.
  cbn [andb negb]. rewrite unquote_escape_all. reflexivity.
Qed.

Lemma members_join (o : object) (fuel : nat) :
  o <> [] -> length o <= fuel ->
  members fuel (join "," (map property o) ++ "}") = Some o.
Proof.
  revert fuel. induction o as [|[k v] o IH]; intros fuel Hne Hlen; [congruence|].
  destruct fuel as [|fuel]; [simpl in Hlen; lia|].
  destruct o as [|kv o].
  - cbn [map join]. rewrite members_property. reflexivity.
  - change (join "," (map property ((k, v) :: kv :: o)))
      with (property (k, v) ++ "," ++ join "," (map property (kv :: o))).
    rewrite !append_assoc, members_property.
    change ("," ++ ?x) with (String "," x). cbn iota beta.
    change (nat_of_ascii "," =? 125)%nat with false.
    change (nat_of_ascii "," =? 44)%nat with true. cbn iota.
    rewrite IH; [reflexivity | discriminate | simpl in *; lia].
Qed.

Lemma length_property (kv : string * string) : 1 <= String.length (property kv).
Proof. unfold property, quote. rewrite length_append. simpl. lia. Qed.

Lemma length_join (o : object) :
  length o <= String.length (join "," (map property o) ++ "}").
Proof.
  induction o as [|kv o IH]; [simpl; lia|].
  destruct o as [|kv' o].
  - cbn [map join length]. rewrite length_append.
    pose proof (length_property kv). lia.
  - change (join "," (map property (kv :: kv' :: o)))
      with (property kv ++ "," ++ join "," (map property (kv' :: o))).
    rewrite !append_assoc, length_append.
    pose proof (length_property kv).
    change ("," ++ ?x) with (String "," x). cbn [String.length length] in *. lia.
Qed.

(** What [stringify] writes, [parse] reads. *)
Theorem parse_stringify (o : object) : parse (stringify o) = Some o.
Proof.
  unfold stringify. change ("{" ++ ?x) with (String "{" x). cbn [parse].
  change (nat_of_ascii "{" =? 123)%nat with true. cbn [negb].
  destruct o as [|kv o]; [reflexivity|].
  destruct (String.eqb_spec (join "," (map property (kv :: o)) ++ "}") "}") as [E|_].
  - exfalso. destruct kv as [k v].
    assert (L : String.length (join "," (map property ((k, v) :: o)) ++ "}") = 1)
      by now rewrite E.
    destruct o as [|kv' o].
    + cbn [map join] in L. rewrite length_append in L.
      unfold property, quote in L. rewrite length_append in L. simpl in L. lia.
    + change (join "," (map property ((k, v) :: kv' :: o)))
        with (property (k, v) ++ "," ++ join "," (map property (kv' :: o))) in L.
      rewrite !append_assoc, length_append in L.
      unfold property, quote in L. rewrite length_append in L. simpl in L. lia.
  - apply members_join; [discriminate | apply length_join].
Qed.

End JSONFacts.

(** ** Header lists *)
Module HeadersFacts.
Import Headers.

Lemma same_name_eq (a b : string) :
  same_name a b = true <-> toLowerCase a = toLowerCase b.
Proof. unfold same_name. apply String.eqb_eq. Qed.

Lemma same_name_neq (a b : string) :
  same_name a b = false <-> toLowerCase a <> toLowerCase b.
Proof. unfold same_name. apply String.eqb_neq. Qed.

Lemma same_name_refl (a : string) : same_name a a = true.
Proof. now apply same_name_eq. Qed.

Lemma same_name_sym (a b : string) : same_name a b = same_name b a.
Proof. unfold same_name. apply String.eqb_sym. Qed.

Lemma same_name_lower_l (a b : string) :
  same_name (toLowerCase a) b = same_name a b.
Proof. unfold same_name. now rewrite toLowerCase_idem. Qed.

Lemma same_name_lower_r (a b : string) :
  same_name a (toLowerCase b) = same_name a b.
Proof. unfold same_name. now rewrite toLowerCase_idem. Qed.

(** Two names that match a third one the same way are interchangeable. *)
Lemma same_name_trans (a b c : string) :
  same_name a b = true -> same_name a c = same_name b c.
Proof.
  unfold same_name. intros H. apply String.eqb_eq in H. now rewrite H.
Qed.

Lemma values_cons (k v : string) (h : t) (m : string) :
  values ((k, v) :: h) m = if same_name k m then v :: values h m else values h m.
Proof.
  unfold values, named. simpl. now destruct (same_name k m).
Qed.

Lemma values_app (h1 h2 : t) (m : string) :
  values (h1 ++ h2)%list m = (values h1 m ++ values h2 m)%list.
Proof. unfold values. now rewrite filter_app, map_app. Qed.

Lemma values_lower (h : t) (m : string) :
  values h (toLowerCase m) = values h m.
Proof.
  unfold values. f_equal. apply filter_ext. intros kv.
  unfold named. apply same_name_lower_r.
Qed.

Lemma values_same_name (h : t) (m n : string) :
  same_name m n = true -> values h m = values h n.
Proof.
  intros H. unfold values. f_equal. apply filter_ext. intros kv.
  unfold named. rewrite (same_name_sym _ m), (same_name_sym _ n).
  now apply same_name_trans.
Qed.

Lemma has_values (h : t) (m : string) :
  has h m = negb (match values h m with [] => true | _ => false end).
Proof.
  unfold has, values. induction h as [|kv h IH]; simpl; [reflexivity|].
  destruct (named m kv); simpl; [reflexivity | exact IH].
Qed.

Lemma get_None_has (h : t) (m : string) :
  get h m = None <-> has h m = false.
Proof.
  rewrite has_values. unfold get. destruct (values h m); simpl; split; congruence.
Qed.

Lemma get_lower (h : t) (m : string) : get h (toLowerCase m) = get h m.
Proof. unfold get. now rewrite values_lower. Qed.

Lemma get_same_name (h : t) (m n : string) :
  same_name m n = true -> get h m = get h n.
Proof. intros H. unfold get. now rewrite (values_same_name h m n H). Qed.

Lemma values_delete (h : t) (n m : string) :
  values (delete h n) m = if same_name m n then [] else values h m.
Proof.
  induction h as [|[k v] h IH].
  - now destruct (same_name m n).
  - unfold delete in *. simpl. unfold named at 1. simpl.
    destruct (same_name k n) eqn:Hkn; simpl.
    + rewrite IH, values_cons.
      destruct (same_name m n) eqn:Hmn; [reflexivity|].
      rewrite (same_name_trans k n m Hkn), (same_name_sym n m), Hmn.
      reflexivity.
    + rewrite !values_cons, IH.
      destruct (same_name m n) eqn:Hmn; [|reflexivity].
      rewrite (same_name_sym k m), (same_name_trans m n k Hmn),
        (same_name_sym n k), Hkn.
      reflexivity.
Qed.

(** *** Normalised values *)

Example normalize_strips :
  normalize (String (ascii_of_nat 9) " a, b  ") = "a, b" /\
  normalize "a, " = "a," /\
  normalize "  " = "".
Proof. repeat split. Qed.

Lemma strip_trailing_cons (c : ascii) (r : string) :
  strip_trailing (String c r)
  = match strip_trailing r with
    | EmptyString => if is_whitespace c then EmptyString else String c EmptyString
    | r' => String c r'
    end.
Proof. reflexivity. Qed.

Lemma strip_trailing_idem (s : string) :
  strip_trailing (strip_trailing s) = strip_trailing s.
Proof.
  induction s as [|c r IH]; [reflexivity|]. rewrite (strip_trailing_cons c r).
  destruct (strip_trailing r) as [|d r'] eqn:E.
  - destruct (is_whitespace c) eqn:W; [reflexivity|].
    rewrite strip_trailing_cons. cbn [strip_trailing]. now rewrite W.
  - rewrite strip_trailing_cons, IH. reflexivity.
Qed.

Lemma strip_leading_plain (s : string) : starts_plain (strip_leading s).
Proof.
  induction s as [|c r IH]; [exact I|]. cbn [strip_leading].
  destruct (is_whitespace c) eqn:W; [exact IH | exact W].
Qed.

Lemma strip_leading_of_plain (s : string) : starts_plain s -> strip_leading s = s.
Proof.
  destruct s as [|c r]; [reflexivity|]. cbn [starts_plain strip_leading].
  now intros ->.
Qed.

Lemma strip_trailing_plain (s : string) :
  starts_plain s -> starts_plain (strip_trailing s).
Proof.
  destruct s as [|c r]; [trivial|]. rewrite strip_trailing_cons.
  cbn [starts_plain]. intros W.
  destruct (strip_trailing r); [now rewrite W | exact W].
Qed.

(** Normalising twice is normalising once. *)
Lemma normalize_idem (v : string) : normalize (normalize v) = normalize v.
Proof.
  unfold normalize.
  rewrite (strip_leading_of_plain (strip_trailing (strip_leading v))).
  - apply strip_trailing_idem.
  - apply strip_trailing_plain, strip_leading_plain.
Qed.

Lemma map_normalize_idem (vs : list string) :
  map normalize (map normalize vs) = map normalize vs.
Proof. rewrite map_map. apply map_ext. intros v. apply normalize_idem. Qed.

(** *** Writing *)

Lemma values_set_header (h : t) (n v m : string) :
  values (set_header h n v) m = if same_name m n then [v] else values h m.
Proof.
  induction h as [|[k w] h IH]; simpl.
  - rewrite values_cons, (same_name_sym n m). now destruct (same_name m n).
  - destruct (same_name k n) eqn:Hkn.
    + rewrite !values_cons, values_delete.
      rewrite (same_name_trans k n m Hkn), (same_name_sym n m).
      now destruct (same_name m n).
    + rewrite !values_cons, IH.
      destruct (same_name m n) eqn:Hmn; [|reflexivity].
      rewrite (same_name_sym k m), (same_name_trans m n k Hmn),
        (same_name_sym n k), Hkn.
      reflexivity.
Qed.

(** After [set], the name has exactly the value set, normalised; the
    other names keep their values. *)
Lemma values_set (h : t) (n v m : string) :
  values (set h n v) m = if same_name m n then [normalize v] else values h m.
Proof. unfold set. apply values_set_header. Qed.

Lemma get_set (h : t) (n v m : string) :
  get (set h n v) m = if same_name m n then Some (normalize v) else get h m.
Proof.
  unfold get. rewrite values_set. now destruct (same_name m n).
Qed.

Lemma get_set_same (h : t) (n v : string) : get (set h n v) n = Some (normalize v).
Proof. now rewrite get_set, same_name_refl. Qed.

Lemma append_spelling (h : t) (n : string) :
  same_name
    (match find (named n) h with Some (k, _) => k | None => n end) n = true.
Proof.
  destruct (find (named n) h) as [[k w]|] eqn:Hf.
  - apply find_some in Hf. exact (proj2 Hf).
  - apply same_name_refl.
Qed.

Lemma values_append (h : t) (n v m : string) :
  values (append h n v) m
  = (values h m ++ (if same_name m n then [normalize v] else []))%list.
Proof.
  unfold append. rewrite values_app. f_equal.
  rewrite values_cons, (same_name_trans _ n m (append_spelling h n)).
  rewrite (same_name_sym n m). now destruct (same_name m n).
Qed.

Lemma values_fill (init : list (string * string)) (h : t) (m : string) :
  values (fill h init) m = (values h m ++ map normalize (values init m))%list.
Proof.
  revert h. induction init as [|[k v] init IH]; intros h; simpl.
  - unfold fill. simpl. symmetry. apply app_nil_r.
  - unfold fill in *. simpl. rewrite IH, values_append, values_cons.
    rewrite <- app_assoc, (same_name_sym k m).
    now destruct (same_name m k).
Qed.

(** A header list built from pairs has, name by name, the normalised
    values of the pairs. *)
Lemma values_new (init : list (string * string)) (m : string) :
  values (new init) m = map normalize (values init m).
Proof. unfold new. now rewrite values_fill. Qed.

Lemma has_new (init : list (string * string)) (m : string) :
  has (new init) m = has init m.
Proof. rewrite !has_values, values_new. now destruct (values init m). Qed.

(** *** Iteration *)

Example entries_combine :
  entries [("X-Tag", "a"); ("Accept", "text/html"); ("x-tag", "b")]
  = [("accept", "text/html"); ("x-tag", "a, b")].
Proof. reflexivity. Qed.

Example entries_set_cookie :
  entries [("Set-Cookie", "a=1"); ("ETag", "abc"); ("Set-Cookie", "b=2")]
  = [("etag", "abc"); ("set-cookie", "a=1"); ("set-cookie", "b=2")].
Proof. reflexivity. Qed.

Example set_overwrites :
  set [("Set-Cookie", "a=1"); ("ETag", "abc"); ("set-cookie", "b=2")] "SET-COOKIE" "c=3"
  = [("Set-Cookie", "c=3"); ("ETag", "abc")].
Proof. reflexivity. Qed.


Lemma insert_perm (x : string) (l : list string) :
  Permutation (insert x l) (x :: l).
Proof.
  induction l as [|y r IH]; simpl; [reflexivity|].
  destruct (x <=? y)%string; [reflexivity|].
  rewrite IH. apply perm_swap.
Qed.

Lemma sort_perm (l : list string) : Permutation (sort l) l.
Proof.
  induction l as [|x l IH]; simpl; [reflexivity|].
  rewrite insert_perm. now apply perm_skip.
Qed.

Lemma names_NoDup (h : t) : NoDup (names h).
Proof.
  unfold names. eapply Permutation_NoDup.
  - symmetry. apply sort_perm.
  - apply NoDup_nodup.
Qed.

Lemma In_names (h : t) (x : string) :
  In x (names h) <-> exists kv, In kv h /\ toLowerCase (fst kv) = x.
Proof.
  unfold names. split.
  - intros H. apply (Permutation_in _ (sort_perm _)) in H.
    apply nodup_In, in_map_iff in H. destruct H as [kv [E I]]. now exists kv.
  - intros [kv [I E]]. apply (Permutation_in _ (Permutation_sym (sort_perm _))).
    apply nodup_In, in_map_iff. now exists kv.
Qed.

Lemma names_lower (h : t) (x : string) :
  In x (names h) -> toLowerCase x = x.
Proof.
  intros H. apply In_names in H. destruct H as [kv [_ E]]. subst x.
  apply toLowerCase_idem.
Qed.

Lemma values_not_named (h : t) (m : string) :
  ~ In (toLowerCase m) (names h) -> values h m = [].
Proof.
  intros H. unfold values.
  replace (filter (named m) h) with (@nil (string * string)); [reflexivity|].
  symmetry. induction h as [|kv h IH]; [reflexivity|]. simpl.
  destruct (named m kv) eqn:Hn.
  - exfalso. apply H, In_names. exists kv. split; [now left|].
    now apply same_name_eq.
  - apply IH. intros Hin. apply H. apply In_names in Hin.
    destruct Hin as [kv' [I E]]. apply In_names. exists kv'. split; [now right | exact E].
Qed.

(** The values called [m] in a run of pairs that all carry the
    lower-case name [x]. *)
Lemma values_block (l : list (string * string)) (x m : string) :
  (forall kv, In kv l -> fst kv = x) -> toLowerCase x = x ->
  values l m = if x =? toLowerCase m then map snd l else [].
Proof.
  intros Hk Hx. unfold values.
  assert (Hf : forall kv, In kv l -> named m kv = (x =? toLowerCase m)).
  { intros kv I. unfold named, same_name. now rewrite (Hk kv I), Hx. }
  destruct (x =? toLowerCase m).
  - f_equal. induction l as [|kv l IH]; [reflexivity|]. simpl.
    rewrite (Hf kv (or_introl eq_refl)). f_equal.
    apply IH; intros; [apply Hk | apply Hf]; now right.
  - replace (filter (named m) l) with (@nil (string * string)); [reflexivity|].
    symmetry. induction l as [|kv l IH]; [reflexivity|]. simpl.
    rewrite (Hf kv (or_introl eq_refl)).
    apply IH; intros; [apply Hk | apply Hf]; now right.
Qed.

Lemma values_flat_map (f : string -> list (string * string))
    (ns : list string) (m : string) :
  NoDup ns ->
  (forall x, In x ns -> toLowerCase x = x) ->
  (forall x kv, In kv (f x) -> fst kv = x) ->
  values (flat_map f ns) m
  = if in_dec string_dec (toLowerCase m) ns then map snd (f (toLowerCase m)) else [].
Proof.
  intros Hnd Hlow Hkeys. induction ns as [|x ns IH]; [reflexivity|].
  simpl flat_map. rewrite values_app.
  rewrite (values_block (f x) x m (Hkeys x) (Hlow x (or_introl eq_refl))).
  inversion Hnd as [|? ? Hx Hnd']; subst.
  rewrite (IH Hnd' (fun y I => Hlow y (or_intror I))).
  destruct (String.eqb_spec x (toLowerCase m)) as [E|E].
  - subst x.
    destruct (in_dec string_dec (toLowerCase m) (toLowerCase m :: ns)) as [_|N];
      [|exfalso; apply N; now left].
    destruct (in_dec string_dec (toLowerCase m) ns) as [I|_]; [contradiction|].
    apply app_nil_r.
  - simpl app.
    destruct (in_dec string_dec (toLowerCase m) ns) as [I|N];
      destruct (in_dec string_dec (toLowerCase m) (x :: ns)) as [I'|N'];
      try reflexivity.
    + exfalso. apply N'. now right.
    + exfalso. destruct I' as [E'|I']; [now apply E | now apply N].
Qed.

Lemma entries_of_keys (h : t) (x : string) (kv : string * string) :
  In kv (entries_of h x) -> fst kv = x.
Proof.
  unfold entries_of. destruct (x =? "set-cookie").
  - intros H. apply in_map_iff in H. destruct H as [v [E _]]. now subst kv.
  - destruct (get h x); simpl; [|contradiction].
    intros [E|[]]. now subst kv.
Qed.

(** What iteration yields under a name: every value of [set-cookie],
    the combined value of any other name. *)
Lemma values_entries (h : t) (m : string) :
  values (entries h) m
  = if toLowerCase m =? "set-cookie" then values h m
    else match get h m with Some v => [v] | None => [] end.
Proof.
  unfold entries.
  rewrite (values_flat_map (entries_of h) (names h) m
             (names_NoDup h) (names_lower h) (entries_of_keys h)).
  destruct (in_dec string_dec (toLowerCase m) (names h)) as [I|N].
  - unfold entries_of. destruct (toLowerCase m =? "set-cookie").
    + rewrite map_map. simpl. rewrite map_id. apply values_lower.
    + rewrite get_lower. now destruct (get h m).
  - unfold get. rewrite (values_not_named h m N).
    now destruct (toLowerCase m =? "set-cookie").
Qed.

(** Iteration loses nothing that [get] can see. *)
Lemma get_entries (h : t) (m : string) : get (entries h) m = get h m.
Proof.
  unfold get at 1. rewrite values_entries.
  destruct (toLowerCase m =? "set-cookie"); [reflexivity|].
  unfold get. now destruct (values h m).
Qed.

Lemma getSetCookie_entries (h : t) : getSetCookie (entries h) = getSetCookie h.
Proof. unfold getSetCookie. now rewrite values_entries. Qed.

(** Copying a [Headers] object, [new Headers(h)]: every value of
    [set-cookie], and the combined value of any other name, normalised. *)
Lemma values_copy (h : t) (m : string) :
  values (new (entries h)) m
  = if toLowerCase m =? "set-cookie" then map normalize (values h m)
    else match get h m with Some v => [normalize v] | None => [] end.
Proof.
  rewrite values_new, values_entries.
  destruct (toLowerCase m =? "set-cookie"); [reflexivity|].
  now destruct (get h m).
Qed.

Lemma get_copy (h : t) (m : string) :
  (toLowerCase m =? "set-cookie") = false ->
  get (new (entries h)) m = option_map normalize (get h m).
Proof.
  intros E. unfold get at 1. rewrite values_copy, E.
  now destruct (get h m).
Qed.

(** A copy of a copy is the copy. *)
Lemma values_copy_copy (h : t) (m : string) :
  values (new (entries (new (entries h)))) m = values (new (entries h)) m.
Proof.
  rewrite (values_copy (new (entries h)) m).
  destruct (toLowerCase m =? "set-cookie") eqn:E.
  - rewrite values_copy, E. apply map_normalize_idem.
  - rewrite (get_copy h m E), values_copy, E.
    destruct (get h m); cbn [option_map]; [now rewrite normalize_idem | reflexivity].
Qed.

Lemma has_get (h : t) (m : string) :
  has h m = match get h m with Some _ => true | None => false end.
Proof.
  rewrite has_values. unfold get. now destruct (values h m).
Qed.

End HeadersFacts.

(** ** Responses *)

Lemma text_FromString (s : string) (i : Response.init) :
  Response.text (Response.build (Some (FromString s)) i) = s.
Proof.
  unfold Response.text, Response.build. simpl.
  apply string_of_list_byte_of_string.
Qed.

(** A client that reads the body of an error response finds the
    payload the handler wrote. *)
Lemma json_FromString (o : JSON.object) (i : Response.init) :
  Response.json (Response.build (Some (FromString (JSON.stringify o))) i) = Some o.
Proof.
  unfold Response.json. rewrite text_FromString. apply JSONFacts.parse_stringify.
Qed.

(** ** The branches of the handler *)
Section Branches.

Variable parseURL : string -> option URL.t.

Lemma fetch_preflight (req : Request.t) (url : URL.t) :
  parseURL (Request.url req) = Some url ->
  (Request.method req =? "OPTIONS") = true ->
  fetch parseURL req
  = Return (Response.build None (Response.only_headers
      [ ("Access-Control-Allow-Origin", "*");
        ("Access-Control-Allow-Methods", "GET, POST, PUT, DELETE, PATCH, OPTIONS");
        ("Access-Control-Allow-Headers", "*");
        ("Access-Control-Max-Age", "86400") ])).
Proof.
  intros Hu Hm. unfold fetch, new_URL.
  rewrite Hu. cbn [Monad.bind ret Monad_Eff bind]. now rewrite Hm.
Qed.

Lemma fetch_root (req : Request.t) (url : URL.t) :
  parseURL (Request.url req) = Some url ->
  (Request.method req =? "OPTIONS") = false ->
  (effective_target url =? "") = true ->
  fetch parseURL req
  = Return (Response.build (Some (FromString "Hello World")) (Response.only_headers
      [ ("Content-Type", "text/plain; charset=utf-8") ])).
Proof.
  intros Hu Hm Ht. unfold fetch, new_URL.
  rewrite Hu. cbn [Monad.bind ret Monad_Eff bind]. rewrite Hm.
  fold (effective_target url). now rewrite Ht.
Qed.

Lemma fetch_invalid_url (req : Request.t) (url : URL.t) :
  parseURL (Request.url req) = Some url ->
  (Request.method req =? "OPTIONS") = false ->
  (effective_target url =? "") = false ->
  parseURL (effective_target url) = None ->
  fetch parseURL req
  = Return (Response.build
      (Some (FromString (JSON.stringify
         [ ("error", "Invalid URL");
           ("message", "Please provide a valid URL to proxy");
           ("usage", URL.origin url ++ "/https://example.com") ])))
      {| Response.init_status := Some 400%Z;
         Response.init_statusText := None;
         Response.init_headers :=
           [ ("Content-Type", "application/json");
             ("Access-Control-Allow-Origin", "*") ] |}).
Proof.
  intros Hu Hm Ht Hp. unfold fetch, new_URL.
  rewrite Hu. cbn [Monad.bind ret Monad_Eff bind]. rewrite Hm.
  fold (effective_target url). now rewrite Ht, Hp.
Qed.

Lemma fetch_invalid_protocol (req : Request.t) (url target : URL.t) :
  parseURL (Request.url req) = Some url ->
  (Request.method req =? "OPTIONS") = false ->
  (effective_target url =? "") = false ->
  parseURL (effective_target url) = Some target ->
  includes ["http:"; "https:"] (URL.protocol target) = false ->
  fetch parseURL req
  = Return (Response.build
      (Some (FromString (JSON.stringify
         [ ("error", "Invalid Protocol");
           ("message", "Only HTTP and HTTPS protocols are supported") ])))
      {| Response.init_status := Some 400%Z;
         Response.init_statusText := None;
         Response.init_headers :=
           [ ("Content-Type", "application/json");
             ("Access-Control-Allow-Origin", "*") ] |}).
Proof.
  intros Hu Hm Ht Hp Hs. unfold fetch, new_URL.
  rewrite Hu. cbn [Monad.bind ret Monad_Eff bind]. rewrite Hm.
  fold (effective_target url). now rewrite Ht, Hp, Hs.
Qed.

(** The dispatching branch, line by line: the outbound request of
    lines 73-92 and what the handler does once it settles: lines 95-111
    when fulfilled, where the constructor of line 107 may throw into
    the catch clause, and lines 113-130 when rejected. *)
Lemma fetch_resolved (req : Request.t) (url target : URL.t) :
  resolves parseURL req url target ->
  exists (init : RequestInit.t) (k : Settled -> Eff Response.t),
    fetch parseURL req = Fetch (URL.href target) init k /\
    init = {| RequestInit.method := Request.method req;
              RequestInit.headers :=
                Headers.set
                  (fold_left copy_header (Headers.entries (Request.headers req))
                     (Headers.new []))
                  "Host" (URL.host target);
              RequestInit.body :=
                if negb (Request.method req =? "GET")
                   && negb (Request.method req =? "HEAD")
                then Request.body req else None;
              RequestInit.redirect := "follow" |} /\
    (forall up : Response.t,
       Response.refusal up = None ->
       k (Fulfilled up)
       = Return (Response.build (option_map FromStream (Response.body up))
           {| Response.init_status := Some (Response.status up);
              Response.init_statusText := Some (Response.statusText up);
              Response.init_headers :=
                Headers.entries
                  (Headers.set (Headers.set (Headers.set (Headers.set (Headers.set
                     (Headers.new (Headers.entries (Response.headers up)))
                     "Access-Control-Allow-Origin" "*")
                     "Access-Control-Allow-Methods" "GET, POST, PUT, DELETE, PATCH, OPTIONS")
                     "Access-Control-Allow-Headers" "*")
                     "X-Proxied-By" "Cloudflare-Workers-Proxy")
                     "X-Target-URL" (URL.href target)) |})) /\
    (forall (error : Thrown) (s : Settled),
       s = Rejected error \/
       (exists up, s = Fulfilled up /\ Response.refusal up = Some error) ->
       k s
       = ConsoleError "Proxy error:" error
           (Return (Response.build
              (Some (FromString (JSON.stringify
                 [ ("error", "Proxy Error");
                   ("message", match error with
                               | ErrorObject message => message
                               | OtherValue => "Failed to proxy request"
                               end);
                   ("target", URL.href target) ])))
              {| Response.init_status := Some 502%Z;
                 Response.init_statusText := None;
                 Response.init_headers :=
                   [ ("Content-Type", "application/json");
                     ("Access-Control-Allow-Origin", "*") ] |}))).
Proof.
  intros (Hu & Hm & Ht & Hp & Hs). unfold fetch, new_URL.
  rewrite Hu. cbn [Monad.bind ret Monad_Eff bind]. rewrite Hm.
  fold (effective_target url). rewrite Ht, Hp, Hs.
  cbn [negb catch MonadExc_Eff await_fetch try_catch bind Monad.bind ret Monad_Eff].
  eexists. eexists. split; [reflexivity|]. split; [reflexivity|].
  split.
  - intros up Hok. cbn [try_catch bind]. unfold new_Response at 1, Response.new.
    cbn [Response.init_status]. unfold Response.refusal in Hok.
    destruct (Response.body up); cbn [option_map] in *; now rewrite Hok.
  - intros error s [->|(up & -> & Hno)]; [reflexivity|].
    cbn [try_catch bind]. unfold new_Response at 1, Response.new.
    cbn [Response.init_status]. unfold Response.refusal in Hno.
    destruct (Response.body up); cbn [option_map] in *; now rewrite Hno.
Qed.

(** Every request that passes target resolution is dispatched, once,
    to the target's [href]. *)
Lemma dispatch_of_resolved (req : Request.t) (url target : URL.t) :
  resolves parseURL req url target ->
  exists init, dispatch_of (fetch parseURL req) = Some (URL.href target, init).
Proof.
  intros H. destruct (fetch_resolved req url target H) as (init & k & E & _).
  exists init. now rewrite E.
Qed.

(** The run of a request whose dispatch is fulfilled with a response
    that the constructor accepts. *)
Lemma run_fulfilled (network : string -> RequestInit.t -> Settled)
    (req : Request.t) (url target : URL.t)
    (input : string) (init : RequestInit.t) (up : Response.t) :
  resolves parseURL req url target ->
  dispatch_of (fetch parseURL req) = Some (input, init) ->
  network input init = Fulfilled up ->
  Response.refusal up = None ->
  run network (fetch parseURL req)
  = {| outcome := inr
         {| Response.status := Response.status up;
            Response.statusText := Response.statusText up;
            Response.headers :=
              Headers.new (Headers.entries
                (Headers.set (Headers.set (Headers.set (Headers.set (Headers.set
                   (Headers.new (Headers.entries (Response.headers up)))
                   "Access-Control-Allow-Origin" "*")
                   "Access-Control-Allow-Methods" "GET, POST, PUT, DELETE, PATCH, OPTIONS")
                   "Access-Control-Allow-Headers" "*")
                   "X-Proxied-By" "Cloudflare-Workers-Proxy")
                   "X-Target-URL" (URL.href target)));
            Response.body := Response.body up |};
       dispatched := [(input, init)];
       logged := [] |}.
Proof.
  intros H Hd Hn Hok. destruct (fetch_resolved req url target H)
    as (init0 & k & E & _ & Hk & _).
  rewrite E in Hd. cbn [dispatch_of] in Hd. injection Hd as <- <-.
  rewrite E. cbn [run]. rewrite Hn, (Hk up Hok). cbn [run outcome dispatched logged].
  unfold Response.build. now destruct (Response.body up).
Qed.

(** The run of a request whose dispatch fails: the fetch is rejected,
    or it is fulfilled with a response that the constructor of line
    107 refuses.  Either way the catch clause answers. *)
Lemma run_failed (network : string -> RequestInit.t -> Settled)
    (req : Request.t) (url target : URL.t)
    (input : string) (init : RequestInit.t) (error : Thrown) :
  resolves parseURL req url target ->
  dispatch_of (fetch parseURL req) = Some (input, init) ->
  network input init = Rejected error \/
  (exists up, network input init = Fulfilled up /\ Response.refusal up = Some error) ->
  run network (fetch parseURL req)
  = {| outcome := inr (Response.build
         (Some (FromString (JSON.stringify
            [ ("error", "Proxy Error");
              ("message", match error with
                          | ErrorObject message => message
                          | OtherValue => "Failed to proxy request"
                          end);
              ("target", URL.href target) ])))
         {| Response.init_status := Some 502%Z;
            Response.init_statusText := None;
            Response.init_headers :=
              [ ("Content-Type", "application/json");
                ("Access-Control-Allow-Origin", "*") ] |});
       dispatched := [(input, init)];
       logged := [("Proxy error:", error)] |}.
Proof.
  intros H Hd Hn. destruct (fetch_resolved req url target H)
    as (init0 & k & E & _ & _ & Hk).
  rewrite E in Hd. cbn [dispatch_of] in Hd. injection Hd as <- <-.
  rewrite E. cbn [run]. now rewrite (Hk error (network (URL.href target) init0) Hn).
Qed.

Lemma run_rejected (network : string -> RequestInit.t -> Settled)
    (req : Request.t) (url target : URL.t)
    (input : string) (init : RequestInit.t) (error : Thrown) :
  resolves parseURL req url target ->
  dispatch_of (fetch parseURL req) = Some (input, init) ->
  network input init = Rejected error ->
  run network (fetch parseURL req)
  = {| outcome := inr (Response.build
         (Some (FromString (JSON.stringify
            [ ("error", "Proxy Error");
              ("message", match error with
                          | ErrorObject message => message
                          | OtherValue => "Failed to proxy request"
                          end);
              ("target", URL.href target) ])))
         {| Response.init_status := Some 502%Z;
            Response.init_statusText := None;
            Response.init_headers :=
              [ ("Content-Type", "application/json");
                ("Access-Control-Allow-Origin", "*") ] |});
       dispatched := [(input, init)];
       logged := [("Proxy error:", error)] |}.
Proof.
  intros H Hd Hn. apply (run_failed network req url target input init error H Hd).
  now left.
Qed.

Lemma run_refused (network : string -> RequestInit.t -> Settled)
    (req : Request.t) (url target : URL.t)
    (input : string) (init : RequestInit.t) (up : Response.t) (error : Thrown) :
  resolves parseURL req url target ->
  dispatch_of (fetch parseURL req) = Some (input, init) ->
  network input init = Fulfilled up ->
  Response.refusal up = Some error ->
  run network (fetch parseURL req)
  = {| outcome := inr (Response.build
         (Some (FromString (JSON.stringify
            [ ("error", "Proxy Error");
              ("message", match error with
                          | ErrorObject message => message
                          | OtherValue => "Failed to proxy request"
                          end);
              ("target", URL.href target) ])))
         {| Response.init_status := Some 502%Z;
            Response.init_statusText := None;
            Response.init_headers :=
              [ ("Content-Type", "application/json");
                ("Access-Control-Allow-Origin", "*") ] |});
       dispatched := [(input, init)];
       logged := [("Proxy error:", error)] |}.
Proof.
  intros H Hd Hn Hno. apply (run_failed network req url target input init error H Hd).
  right. now exists up.
Qed.


Lemma refusal_out_of_range (up : Response.t) :
  (Response.status up < 200 \/ 599 < Response.status up)%Z ->
  exists error, Response.refusal up = Some error.
Proof.
  intros H. unfold Response.refusal, Response.check.
  assert (E : ((200 <=? Response.status up) && (Response.status up <=? 599))%Z = false).
  { apply andb_false_iff. destruct H; [left | right]; now apply Z.leb_gt. }
  rewrite E. now eexists.
Qed.

(** The values of the five headers laid over a copy of the upstream
    headers, and of the other names. *)
Lemma overlay_values (h : Headers.t) (href name : string) :
  Headers.values
    (Headers.new (Headers.entries
       (Headers.set (Headers.set (Headers.set (Headers.set (Headers.set
          (Headers.new (Headers.entries h))
          "Access-Control-Allow-Origin" "*")
          "Access-Control-Allow-Methods" "GET, POST, PUT, DELETE, PATCH, OPTIONS")
          "Access-Control-Allow-Headers" "*")
          "X-Proxied-By" "Cloudflare-Workers-Proxy")
          "X-Target-URL" href))) name
  = if toLowerCase name =? "x-target-url" then [Headers.normalize href]
    else if toLowerCase name =? "x-proxied-by" then ["Cloudflare-Workers-Proxy"]
    else if toLowerCase name =? "access-control-allow-headers" then ["*"]
    else if toLowerCase name =? "access-control-allow-methods"
         then ["GET, POST, PUT, DELETE, PATCH, OPTIONS"]
    else if toLowerCase name =? "access-control-allow-origin" then ["*"]
    else Headers.values (Headers.new (Headers.entries h)) name.
Proof.
  rewrite HeadersFacts.values_copy.
  destruct (toLowerCase name =? "set-cookie") eqn:E.
  - rewrite !HeadersFacts.values_set. unfold Headers.same_name.
    apply String.eqb_eq in E. rewrite E. cbn -[Headers.normalize Headers.values Headers.new Headers.entries].
    rewrite HeadersFacts.values_copy, E. cbn [String.eqb].
    change ("set-cookie" =? "set-cookie") with true. cbv iota.
    apply HeadersFacts.map_normalize_idem.
  - rewrite !HeadersFacts.get_set.
    change (Headers.same_name name "X-Target-URL")
      with (toLowerCase name =? "x-target-url").
    change (Headers.same_name name "X-Proxied-By")
      with (toLowerCase name =? "x-proxied-by").
    change (Headers.same_name name "Access-Control-Allow-Headers")
      with (toLowerCase name =? "access-control-allow-headers").
    change (Headers.same_name name "Access-Control-Allow-Methods")
      with (toLowerCase name =? "access-control-allow-methods").
    change (Headers.same_name name "Access-Control-Allow-Origin")
      with (toLowerCase name =? "access-control-allow-origin").
    destruct (toLowerCase name =? "x-target-url");
      [now rewrite HeadersFacts.normalize_idem|].
    destruct (toLowerCase name =? "x-proxied-by"); [reflexivity|].
    destruct (toLowerCase name =? "access-control-allow-headers"); [reflexivity|].
    destruct (toLowerCase name =? "access-control-allow-methods"); [reflexivity|].
    destruct (toLowerCase name =? "access-control-allow-origin"); [reflexivity|].
    rewrite (HeadersFacts.get_copy h name E), HeadersFacts.values_copy, E.
    destruct (Headers.get h name); cbn [option_map];
      [now rewrite HeadersFacts.normalize_idem | reflexivity].
Qed.

Lemma overlay_get (h : Headers.t) (href name : string) :
  Headers.get
    (Headers.new (Headers.entries
       (Headers.set (Headers.set (Headers.set (Headers.set (Headers.set
          (Headers.new (Headers.entries h))
          "Access-Control-Allow-Origin" "*")
          "Access-Control-Allow-Methods" "GET, POST, PUT, DELETE, PATCH, OPTIONS")
          "Access-Control-Allow-Headers" "*")
          "X-Proxied-By" "Cloudflare-Workers-Proxy")
          "X-Target-URL" href))) name
  = if toLowerCase name =? "x-target-url" then Some (Headers.normalize href)
    else if toLowerCase name =? "x-proxied-by" then Some "Cloudflare-Workers-Proxy"
    else if toLowerCase name =? "access-control-allow-headers" then Some "*"
    else if toLowerCase name =? "access-control-allow-methods"
         then Some "GET, POST, PUT, DELETE, PATCH, OPTIONS"
    else if toLowerCase name =? "access-control-allow-origin" then Some "*"
    else Headers.get (Headers.new (Headers.entries h)) name.
Proof.
  unfold Headers.get at 1. rewrite overlay_values.
  destruct (toLowerCase name =? "x-target-url"); [reflexivity|].
  destruct (toLowerCase name =? "x-proxied-by"); [reflexivity|].
  destruct (toLowerCase name =? "access-control-allow-headers"); [reflexivity|].
  destruct (toLowerCase name =? "access-control-allow-methods"); [reflexivity|].
  destruct (toLowerCase name =? "access-control-allow-origin"); reflexivity.
Qed.


End Branches.

(** ** The header loop *)

Lemma last_value_cons (v : string) (vs : list string) :
  last_value (v :: vs)
  = match last_value vs with Some w => Some w | None => Some v end.
Proof.
  revert v. induction vs as [|x vs IH]; intros v; [reflexivity|].
  change (last_value (v :: x :: vs)) with (last_value (x :: vs)).
  rewrite (IH x). now destruct (last_value vs).
Qed.

Lemma skipped_same_name (a b : string) :
  Headers.same_name a b = true ->
  includes skipped (toLowerCase a) = includes skipped (toLowerCase b).
Proof. intros H. apply HeadersFacts.same_name_eq in H. now rewrite H. Qed.

(** After the loop of lines 76-81 a skipped name is as it was before;
    any other name has the value, normalised, of the last entry that
    carries it. *)
Lemma get_copy_headers (es : list (string * string)) (h0 : Headers.t) (m : string) :
  Headers.get (fold_left copy_header es h0) m
  = if includes skipped (toLowerCase m) then Headers.get h0 m
    else match last_value (Headers.values es m) with
         | Some v => Some (Headers.normalize v)
         | None => Headers.get h0 m
         end.
Proof.
  revert h0. induction es as [|[k v] es IH]; intros h0.
  - simpl. now destruct (includes skipped (toLowerCase m)).
  - simpl fold_left. rewrite IH, HeadersFacts.values_cons. unfold copy_header.
    destruct (Headers.same_name k m) eqn:Hkm.
    + rewrite (skipped_same_name k m Hkm), last_value_cons.
      destruct (includes skipped (toLowerCase m)); simpl negb; cbv iota; [reflexivity|].
      rewrite HeadersFacts.get_set, (HeadersFacts.same_name_sym m k), Hkm.
      now destruct (last_value (Headers.values es m)).
    + destruct (includes skipped (toLowerCase k)); simpl negb; cbv iota; [reflexivity|].
      rewrite HeadersFacts.get_set, (HeadersFacts.same_name_sym m k), Hkm.
      reflexivity.
Qed.

(** The last entry of a name among the iterated entries: the last
    value for [set-cookie], the combined value otherwise. *)
Lemma last_value_entries (h : Headers.t) (m : string) :
  last_value (Headers.values (Headers.entries h) m)
  = if toLowerCase m =? "set-cookie" then last_value (Headers.values h m)
    else Headers.get h m.
Proof.
  rewrite HeadersFacts.values_entries.
  destruct (toLowerCase m =? "set-cookie"); [reflexivity|].
  now destruct (Headers.get h m).
Qed.

Lemma new_empty_get (m : string) : Headers.get (Headers.new []) m = None.
Proof. reflexivity. Qed.

Lemma includes_cons (x : string) (xs : list string) (y : string) :
  includes (x :: xs) y = (y =? x) || includes xs y.
Proof. reflexivity. Qed.

Lemma includes_nil (y : string) : includes [] y = false.
Proof. reflexivity. Qed.


(** * The handler, stage by stage *)
Section Properties.

Variable parseURL : string -> option URL.t.

(** ** Preflight *)

(** C7: a request with method OPTIONS is answered at once with status
    200 (one of the allowed 200/204), no body and the four preflight
    headers; the answer is the same whatever the parser makes of the
    target, and nothing is dispatched to any network. *)
Theorem preflight_short_circuits (req : Request.t) (url : URL.t) :
  parseURL (Request.url req) = Some url ->
  (Request.method req =? "OPTIONS") = true ->
  exists resp : Response.t,
    fetch parseURL req = Return resp /\
    (Response.status resp = 200%Z \/ Response.status resp = 204%Z) /\
    Response.body resp = None /\
    Response.text resp = "" /\
    Headers.get (Response.headers resp) "Access-Control-Allow-Origin" = Some "*" /\
    Headers.get (Response.headers resp) "Access-Control-Allow-Methods"
      = Some "GET, POST, PUT, DELETE, PATCH, OPTIONS" /\
    Headers.get (Response.headers resp) "Access-Control-Allow-Headers" = Some "*" /\
    Headers.get (Response.headers resp) "Access-Control-Max-Age" = Some "86400" /\
    (forall (parseURL' : string -> option URL.t) (url' : URL.t),
        parseURL' (Request.url req) = Some url' ->
        fetch parseURL' req = Return resp) /\
    (forall network, dispatch_of (fetch parseURL req) = None /\
                     dispatched (run network (fetch parseURL req)) = []).
Proof.
  intros Hu Hm. eexists. split; [exact (fetch_preflight parseURL req url Hu Hm)|].
  repeat split; try reflexivity.
  - now left.
  - intros p' u' Hu'. exact (fetch_preflight p' req u' Hu' Hm).
  - now rewrite (fetch_preflight parseURL req url Hu Hm).
  - now rewrite (fetch_preflight parseURL req url Hu Hm).
Qed.

(** ** Target resolver *)

(** C8, as the code has it: on the path [/] with an empty query string
    the answer is the greeting (status 200, [Content-Type: text/plain;
    charset=utf-8] and no other header, body [Hello World]) and nothing
    is dispatched.  With a non-empty query string the effective target
    is the query string: no answer is the greeting, on any network, and
    the request goes on to target validation, answered 400 when the
    query string does not parse or has another scheme than http or
    https, and dispatched to it otherwise. *)
Theorem root_greeting (req : Request.t) (url : URL.t) :
  parseURL (Request.url req) = Some url ->
  (Request.method req =? "OPTIONS") = false ->
  URL.pathname url = "/" ->
  (URL.search url = "" ->
     exists greeting : Response.t,
       fetch parseURL req = Return greeting /\
       Response.status greeting = 200%Z /\
       Response.headers greeting = [("Content-Type", "text/plain; charset=utf-8")] /\
       Headers.get (Response.headers greeting) "Content-Type"
         = Some "text/plain; charset=utf-8" /\
       Response.text greeting = "Hello World" /\
       forall network, dispatched (run network (fetch parseURL req)) = []) /\
  (URL.search url <> "" ->
     effective_target url = URL.search url /\
     (forall network resp,
         outcome (run network (fetch parseURL req)) = inr resp ->
         Response.headers resp <> [("Content-Type", "text/plain; charset=utf-8")] /\
         Headers.get (Response.headers resp) "Access-Control-Allow-Origin" = Some "*") /\
     (parseURL (URL.search url) = None ->
        exists resp : Response.t,
          fetch parseURL req = Return resp /\
          Response.status resp = 400%Z /\
          Response.json resp
            = Some [ ("error", "Invalid URL");
                     ("message", "Please provide a valid URL to proxy");
                     ("usage", URL.origin url ++ "/https://example.com") ]) /\
     (forall target : URL.t,
         parseURL (URL.search url) = Some target ->
         includes ["http:"; "https:"] (URL.protocol target) = false ->
         exists resp : Response.t,
           fetch parseURL req = Return resp /\
           Response.status resp = 400%Z /\
           Response.json resp
             = Some [ ("error", "Invalid Protocol");
                      ("message", "Only HTTP and HTTPS protocols are supported") ]) /\
     (forall target : URL.t,
         parseURL (URL.search url) = Some target ->
         includes ["http:"; "https:"] (URL.protocol target) = true ->
         exists init : RequestInit.t,
           dispatch_of (fetch parseURL req) = Some (URL.href target, init) /\
           forall network,
             dispatched (run network (fetch parseURL req)) = [(URL.href target, init)])).
Proof.
  intros Hu Hm Hp. split.
  { intros Hs.
    assert (Ht : (effective_target url =? "") = true).
    { unfold effective_target. now rewrite Hp, Hs. }
    eexists. split; [exact (fetch_root parseURL req url Hu Hm Ht)|].
    repeat split. intros network.
    now rewrite (fetch_root parseURL req url Hu Hm Ht). }
  intros Hs.
  assert (He : effective_target url = URL.search url).
  { unfold effective_target. now rewrite Hp. }
  assert (Ht : (effective_target url =? "") = false).
  { rewrite He. now apply String.eqb_neq. }
  split; [exact He|]. rewrite <- He.
  assert (Hcors : forall network resp,
             outcome (run network (fetch parseURL req)) = inr resp ->
             Headers.get (Response.headers resp) "Access-Control-Allow-Origin" = Some "*").
  { intros network resp Ho.
    destruct (parseURL (effective_target url)) as [target|] eqn:Hq.
    2:{ rewrite (fetch_invalid_url parseURL req url Hu Hm Ht Hq) in Ho.
        cbn [run outcome] in Ho. now injection Ho as <-. }
    destruct (includes ["http:"; "https:"] (URL.protocol target)) eqn:Hs'.
    2:{ rewrite (fetch_invalid_protocol parseURL req url target Hu Hm Ht Hq Hs') in Ho.
        cbn [run outcome] in Ho. now injection Ho as <-. }
    assert (H : resolves parseURL req url target) by now repeat split.
    destruct (dispatch_of_resolved parseURL req url target H) as (init & Hd).
    destruct (network (URL.href target) init) as [up|error] eqn:Hn.
    - destruct (Response.refusal up) as [error|] eqn:Hr.
      + rewrite (run_refused parseURL network req url target _ _ up error H Hd Hn Hr) in Ho.
        cbn [outcome] in Ho. now injection Ho as <-.
      + rewrite (run_fulfilled parseURL network req url target _ _ up H Hd Hn Hr) in Ho.
        cbn [outcome] in Ho. injection Ho as <-.
        cbn [Response.headers]. now rewrite overlay_get.
    - rewrite (run_rejected parseURL network req url target _ _ error H Hd Hn) in Ho.
      cbn [outcome] in Ho. now injection Ho as <-. }
  split; [|split; [|split]].
  - intros network resp Ho. split; [|exact (Hcors network resp Ho)].
    intros E. specialize (Hcors network resp Ho). rewrite E in Hcors.
    discriminate Hcors.
  - intros Hq. eexists.
    split; [exact (fetch_invalid_url parseURL req url Hu Hm Ht Hq)|].
    split; [reflexivity | apply json_FromString].
  - intros target Hq Hs'. eexists.
    split; [exact (fetch_invalid_protocol parseURL req url target Hu Hm Ht Hq Hs')|].
    split; [reflexivity | apply json_FromString].
  - intros target Hq Hs'.
    assert (H : resolves parseURL req url target) by now repeat split.
    destruct (dispatch_of_resolved parseURL req url target H) as (init & Hd).
    exists init. split; [exact Hd|]. intros network.
    destruct (network (URL.href target) init) as [up|error] eqn:Hn.
    + destruct (Response.refusal up) as [error|] eqn:Hr.
      * now rewrite (run_refused parseURL network req url target _ _ up error H Hd Hn Hr).
      * now rewrite (run_fulfilled parseURL network req url target _ _ up H Hd Hn Hr).
    + now rewrite (run_rejected parseURL network req url target _ _ error H Hd Hn).
Qed.

(** C10: the greeting of the root branch carries [Content-Type] and no
    other header: none of the CORS headers and none of the diagnostic
    headers of the other branches. *)
Theorem greeting_has_only_content_type (req : Request.t) (url : URL.t) :
  parseURL (Request.url req) = Some url ->
  (Request.method req =? "OPTIONS") = false ->
  (effective_target url =? "") = true ->
  exists resp : Response.t,
    fetch parseURL req = Return resp /\
    Response.headers resp = [("Content-Type", "text/plain; charset=utf-8")] /\
    Headers.entries (Response.headers resp)
      = [("content-type", "text/plain; charset=utf-8")] /\
    Headers.has (Response.headers resp) "Access-Control-Allow-Origin" = false /\
    Headers.has (Response.headers resp) "Access-Control-Allow-Methods" = false /\
    Headers.has (Response.headers resp) "Access-Control-Allow-Headers" = false /\
    Headers.has (Response.headers resp) "Access-Control-Max-Age" = false /\
    Headers.has (Response.headers resp) "X-Proxied-By" = false /\
    Headers.has (Response.headers resp) "X-Target-URL" = false.
Proof.
  intros Hu Hm Ht. eexists. split; [exact (fetch_root parseURL req url Hu Hm Ht)|].
  repeat split; reflexivity.
Qed.

(** C4: a non-empty effective target that does not parse is answered
    400 with the [Invalid URL] payload, whose usage hint is the
    worker's origin followed by [/https://example.com]; nothing is
    dispatched. *)
Theorem invalid_url_rejected (req : Request.t) (url : URL.t) :
  parseURL (Request.url req) = Some url ->
  (Request.method req =? "OPTIONS") = false ->
  (effective_target url =? "") = false ->
  parseURL (effective_target url) = None ->
  exists resp : Response.t,
    fetch parseURL req = Return resp /\
    Response.status resp = 400%Z /\
    Headers.get (Response.headers resp) "Content-Type" = Some "application/json" /\
    Headers.get (Response.headers resp) "Access-Control-Allow-Origin" = Some "*" /\
    Response.text resp
      = JSON.stringify
          [ ("error", "Invalid URL");
            ("message", "Please provide a valid URL to proxy");
            ("usage", URL.origin url ++ "/https://example.com") ] /\
    Response.json resp
      = Some [ ("error", "Invalid URL");
               ("message", "Please provide a valid URL to proxy");
               ("usage", URL.origin url ++ "/https://example.com") ] /\
    (forall network, dispatch_of (fetch parseURL req) = None /\
                     dispatched (run network (fetch parseURL req)) = []).
Proof.
  intros Hu Hm Ht Hp. eexists.
  split; [exact (fetch_invalid_url parseURL req url Hu Hm Ht Hp)|].
  repeat split; try reflexivity.
  - apply text_FromString.
  - apply json_FromString.
  - now rewrite (fetch_invalid_url parseURL req url Hu Hm Ht Hp).
  - now rewrite (fetch_invalid_url parseURL req url Hu Hm Ht Hp).
Qed.

(** C5: a target that parses but whose scheme is neither [http:] nor
    [https:] is answered 400 with the [Invalid Protocol] payload;
    nothing is dispatched. *)
Theorem invalid_protocol_rejected (req : Request.t) (url target : URL.t) :
  parseURL (Request.url req) = Some url ->
  (Request.method req =? "OPTIONS") = false ->
  (effective_target url =? "") = false ->
  parseURL (effective_target url) = Some target ->
  URL.protocol target <> "http:" ->
  URL.protocol target <> "https:" ->
  exists resp : Response.t,
    fetch parseURL req = Return resp /\
    Response.status resp = 400%Z /\
    Headers.get (Response.headers resp) "Content-Type" = Some "application/json" /\
    Headers.get (Response.headers resp) "Access-Control-Allow-Origin" = Some "*" /\
    Response.text resp
      = JSON.stringify
          [ ("error", "Invalid Protocol");
            ("message", "Only HTTP and HTTPS protocols are supported") ] /\
    Response.json resp
      = Some [ ("error", "Invalid Protocol");
               ("message", "Only HTTP and HTTPS protocols are supported") ] /\
    (forall network, dispatch_of (fetch parseURL req) = None /\
                     dispatched (run network (fetch parseURL req)) = []).
Proof.
  intros Hu Hm Ht Hp Hh Hs.
  assert (Hi : includes ["http:"; "https:"] (URL.protocol target) = false).
  { rewrite !includes_cons, includes_nil.
    apply String.eqb_neq in Hh, Hs. now rewrite Hh, Hs. }
  eexists.
  split; [exact (fetch_invalid_protocol parseURL req url target Hu Hm Ht Hp Hi)|].
  repeat split; try reflexivity;
    now rewrite (fetch_invalid_protocol parseURL req url target Hu Hm Ht Hp Hi).
Qed.

End Properties.

Section Forwarding.

Variable parseURL : string -> option URL.t.

(** ** Header filter *)

(** C2, as the code has it: the outbound headers are [Host], set to
    the target's host, and every inbound name outside the six skipped
    ones with the value that iterating the inbound headers yields for
    it: the combined value of all its occurrences, and for
    [set-cookie], whose values are iterated one by one, the last of
    them.  Each value is stored as [set] stores it, without leading and
    trailing whitespace.  The skipped names are absent. *)
Theorem outbound_headers (req : Request.t) (url target : URL.t) :
  resolves parseURL req url target ->
  exists init : RequestInit.t,
    dispatch_of (fetch parseURL req) = Some (URL.href target, init) /\
    forall name : string,
      Headers.get (RequestInit.headers init) name
      = if Headers.same_name name "Host"
        then Some (Headers.normalize (URL.host target))
        else if includes ["host"; "connection"; "keep-alive";
                          "cf-connecting-ip"; "cf-ray"; "cf-visitor"]
                  (toLowerCase name) then None
        else if toLowerCase name =? "set-cookie"
             then option_map Headers.normalize
                    (last_value (Headers.values (Request.headers req) name))
        else option_map Headers.normalize
               (Headers.get (Request.headers req) name).
Proof.
  intros H. destruct (fetch_resolved parseURL req url target H)
    as (init & k & E & Ei & _).
  exists init. split; [now rewrite E|].
  intros name. subst init. cbn [RequestInit.headers].
  rewrite HeadersFacts.get_set.
  destruct (Headers.same_name name "Host"); [reflexivity|].
  rewrite get_copy_headers, new_empty_get, last_value_entries.
  fold skipped.
  destruct (includes skipped (toLowerCase name)); [reflexivity|].
  destruct (toLowerCase name =? "set-cookie").
  - now destruct (last_value (Headers.values (Request.headers req) name)).
  - now destruct (Headers.get (Request.headers req) name).
Qed.

(** ** Dispatcher *)

(** C3, as the code has it: the outbound request keeps the method; its
    body is absent for GET and HEAD and is the inbound body otherwise,
    so it carries a body exactly when the method is neither GET nor
    HEAD and the inbound request carried one. *)
Theorem outbound_body (req : Request.t) (url target : URL.t) :
  resolves parseURL req url target ->
  exists init : RequestInit.t,
    dispatch_of (fetch parseURL req) = Some (URL.href target, init) /\
    RequestInit.method init = Request.method req /\
    RequestInit.body init
      = (if (Request.method req =? "GET") || (Request.method req =? "HEAD")
         then None else Request.body req) /\
    (RequestInit.body init <> None <->
       Request.method req <> "GET" /\ Request.method req <> "HEAD" /\
       Request.body req <> None).
Proof.
  intros H. destruct (fetch_resolved parseURL req url target H)
    as (init & k & E & Ei & _).
  exists init. split; [now rewrite E|]. subst init.
  cbn [RequestInit.method RequestInit.body].
  split; [reflexivity|].
  destruct (String.eqb_spec (Request.method req) "GET") as [G|G];
    destruct (String.eqb_spec (Request.method req) "HEAD") as [D|D];
    cbn [negb andb orb]; (split; [reflexivity|]); split;
    try (intros N; now contradiction N);
    try (intros (N1 & N2 & N3); now (contradiction N1 || contradiction N2)).
  - intros N. now repeat split.
  - now intros (_ & _ & N).
Qed.

(** ** Response wrapper *)


(** C6: when the dispatch is rejected, the rejection is caught: the
    handler still answers, with status 502 and the [Proxy Error]
    payload, whose message is the message of the error thrown and
    whose target is the target's [href]. *)
Theorem dispatch_failure_caught
    (network : string -> RequestInit.t -> Settled)
    (req : Request.t) (url target : URL.t)
    (input : string) (init : RequestInit.t) (error : Thrown) :
  resolves parseURL req url target ->
  dispatch_of (fetch parseURL req) = Some (input, init) ->
  network input init = Rejected error ->
  exists resp : Response.t,
    run network (fetch parseURL req)
      = {| outcome := inr resp;
           dispatched := [(input, init)];
           logged := [("Proxy error:", error)] |} /\
    Response.status resp = 502%Z /\
    Headers.get (Response.headers resp) "Content-Type" = Some "application/json" /\
    Headers.get (Response.headers resp) "Access-Control-Allow-Origin" = Some "*" /\
    Response.text resp
      = JSON.stringify
          [ ("error", "Proxy Error");
            ("message", match error with
                        | ErrorObject message => message
                        | OtherValue => "Failed to proxy request"
                        end);
            ("target", URL.href target) ] /\
    Response.json resp
      = Some [ ("error", "Proxy Error");
               ("message", match error with
                           | ErrorObject message => message
                           | OtherValue => "Failed to proxy request"
                           end);
               ("target", URL.href target) ].
Proof.
  intros H Hd Hn. eexists.
  split; [exact (run_rejected parseURL network req url target input init error H Hd Hn)|].
  repeat split; try reflexivity; [apply text_FromString | apply json_FromString].
Qed.

End Forwarding.

Section ErrorPayloads.

Variable parseURL : string -> option URL.t.

(** A wrapped upstream response is marked [X-Proxied-By]; the responses
    the handler writes itself are not. *)
Lemma proxied_is_marked
    (network : string -> RequestInit.t -> Settled)
    (req : Request.t) (url target : URL.t) (init : RequestInit.t)
    (up resp : Response.t) :
  resolves parseURL req url target ->
  dispatch_of (fetch parseURL req) = Some (URL.href target, init) ->
  network (URL.href target) init = Fulfilled up ->
  Response.refusal up = None ->
  outcome (run network (fetch parseURL req)) = inr resp ->
  Headers.get (Response.headers resp) "X-Proxied-By" = Some "Cloudflare-Workers-Proxy".
Proof.
  intros H Hd Hn Hok Ho.
  rewrite (run_fulfilled parseURL network req url target _ _ up H Hd Hn Hok) in Ho.
  cbn [outcome] in Ho. injection Ho as <-.
  cbn [Response.headers]. now rewrite overlay_get.
Qed.

(** C9, as the code has it: past the preflight and the greeting, every
    response that is not a proxied one is one of three error payloads.
    [Invalid URL] carries a usage hint and [Proxy Error] carries the
    target URL, each besides the kind and the message; [Invalid
    Protocol] carries the kind and the message and nothing else. *)
Theorem error_payload_fields
    (network : string -> RequestInit.t -> Settled)
    (req : Request.t) (url : URL.t) (resp : Response.t) :
  parseURL (Request.url req) = Some url ->
  (Request.method req =? "OPTIONS") = false ->
  (effective_target url =? "") = false ->
  outcome (run network (fetch parseURL req)) = inr resp ->
  Headers.get (Response.headers resp) "X-Proxied-By" = None ->
  exists payload : JSON.object,
    Response.json resp = Some payload /\
    ((parseURL (effective_target url) = None /\
      payload = [ ("error", "Invalid URL");
                  ("message", "Please provide a valid URL to proxy");
                  ("usage", URL.origin url ++ "/https://example.com") ] /\
      JSON.prop payload "usage" = Some (URL.origin url ++ "/https://example.com"))
     \/
     (payload = [ ("error", "Invalid Protocol");
                  ("message", "Only HTTP and HTTPS protocols are supported") ] /\
      JSON.prop payload "usage" = None /\
      JSON.prop payload "target" = None)
     \/
     (exists (target : URL.t) (message : string),
        parseURL (effective_target url) = Some target /\
        payload = [ ("error", "Proxy Error");
                    ("message", message);
                    ("target", URL.href target) ] /\
        JSON.prop payload "target" = Some (URL.href target))).
Proof.
  intros Hu Hm Ht Ho Hx.
  destruct (parseURL (effective_target url)) as [target|] eqn:Hp.
  - destruct (includes ["http:"; "https:"] (URL.protocol target)) eqn:Hs.
    + assert (H : resolves parseURL req url target) by now repeat split.
      destruct (dispatch_of_resolved parseURL req url target H) as (init & Hd).
      destruct (network (URL.href target) init) as [up|error] eqn:Hn.
      * destruct (Response.refusal up) as [error|] eqn:Hr.
        -- rewrite (run_refused parseURL network req url target _ _ up error H Hd Hn Hr) in Ho.
           cbn [outcome] in Ho. injection Ho as <-.
           eexists. split; [apply json_FromString|]. right. right.
           eexists. eexists. split; [reflexivity|]. split; reflexivity.
        -- rewrite (proxied_is_marked network req url target init up resp H Hd Hn Hr Ho) in Hx.
           discriminate Hx.
      * rewrite (run_rejected parseURL network req url target _ _ error H Hd Hn) in Ho.
        cbn [outcome] in Ho. injection Ho as <-.
        eexists. split; [apply json_FromString|]. right. right.
        eexists. eexists. split; [reflexivity|]. split; reflexivity.
    + rewrite (fetch_invalid_protocol parseURL req url target Hu Hm Ht Hp Hs) in Ho.
      cbn [run outcome] in Ho. injection Ho as <-.
      eexists. split; [apply json_FromString|]. right. left.
      split; [reflexivity|]. split; reflexivity.
  - rewrite (fetch_invalid_url parseURL req url Hu Hm Ht Hp) in Ho.
    cbn [run outcome] in Ho. injection Ho as <-.
    eexists. split; [apply json_FromString|]. left.
    split; [reflexivity|]. split; reflexivity.
Qed.

(** ** The handler always answers *)

(** Whatever the request and the network, the handler's promise is
    fulfilled with a response: no failure of the target or of the
    dispatch escapes it. *)
Lemma fetch_always_responds
    (network : string -> RequestInit.t -> Settled)
    (req : Request.t) (url : URL.t) :
  parseURL (Request.url req) = Some url ->
  exists resp : Response.t, outcome (run network (fetch parseURL req)) = inr resp.
Proof.
  intros Hu.
  destruct (Request.method req =? "OPTIONS") eqn:Hm.
  { rewrite (fetch_preflight parseURL req url Hu Hm). now eexists. }
  destruct (effective_target url =? "") eqn:Ht.
  { rewrite (fetch_root parseURL req url Hu Hm Ht). now eexists. }
  destruct (parseURL (effective_target url)) as [target|] eqn:Hp.
  2:{ rewrite (fetch_invalid_url parseURL req url Hu Hm Ht Hp). now eexists. }
  destruct (includes ["http:"; "https:"] (URL.protocol target)) eqn:Hs.
  2:{ rewrite (fetch_invalid_protocol parseURL req url target Hu Hm Ht Hp Hs).
      now eexists. }
  assert (H : resolves parseURL req url target) by now repeat split.
  destruct (dispatch_of_resolved parseURL req url target H) as (init & Hd).
  destruct (network (URL.href target) init) as [up|error] eqn:Hn.
  - destruct (Response.refusal up) as [error|] eqn:Hr.
    + rewrite (run_refused parseURL network req url target _ _ up error H Hd Hn Hr).
      now eexists.
    + rewrite (run_fulfilled parseURL network req url target _ _ up H Hd Hn Hr).
      now eexists.
  - rewrite (run_rejected parseURL network req url target _ _ error H Hd Hn).
    now eexists.
Qed.

(** Every answer other than the greeting allows every origin. *)
Lemma cors_outside_greeting
    (network : string -> RequestInit.t -> Settled)
    (req : Request.t) (url : URL.t) (resp : Response.t) :
  parseURL (Request.url req) = Some url ->
  (Request.method req =? "OPTIONS") || negb (effective_target url =? "") = true ->
  outcome (run network (fetch parseURL req)) = inr resp ->
  Headers.get (Response.headers resp) "Access-Control-Allow-Origin" = Some "*".
Proof.
  intros Hu Hb Ho.
  destruct (Request.method req =? "OPTIONS") eqn:Hm.
  { rewrite (fetch_preflight parseURL req url Hu Hm) in Ho.
    cbn [run outcome] in Ho. now injection Ho as <-. }
  destruct (effective_target url =? "") eqn:Ht; [discriminate Hb|].
  destruct (parseURL (effective_target url)) as [target|] eqn:Hp.
  2:{ rewrite (fetch_invalid_url parseURL req url Hu Hm Ht Hp) in Ho.
      cbn [run outcome] in Ho. now injection Ho as <-. }
  destruct (includes ["http:"; "https:"] (URL.protocol target)) eqn:Hs.
  2:{ rewrite (fetch_invalid_protocol parseURL req url target Hu Hm Ht Hp Hs) in Ho.
      cbn [run outcome] in Ho. now injection Ho as <-. }
  assert (H : resolves parseURL req url target) by now repeat split.
  destruct (dispatch_of_resolved parseURL req url target H) as (init & Hd).
  destruct (network (URL.href target) init) as [up|error] eqn:Hn.
  - destruct (Response.refusal up) as [error|] eqn:Hr.
    + rewrite (run_refused parseURL network req url target _ _ up error H Hd Hn Hr) in Ho.
      cbn [outcome] in Ho. now injection Ho as <-.
    + rewrite (run_fulfilled parseURL network req url target _ _ up H Hd Hn Hr) in Ho.
      cbn [outcome] in Ho. injection Ho as <-.
      cbn [Response.headers]. now rewrite overlay_get.
  - rewrite (run_rejected parseURL network req url target _ _ error H Hd Hn) in Ho.
    cbn [outcome] in Ho. now injection Ho as <-.
Qed.

(** A request whose own URL does not parse makes the handler throw at
    line 7; the runtime never delivers such a request. *)
Lemma fetch_throws_on_bad_request_url
    (network : string -> RequestInit.t -> Settled) (req : Request.t) :
  parseURL (Request.url req) = None ->
  outcome (run network (fetch parseURL req)) = inl (ErrorObject "Invalid URL").
Proof. intros Hu. unfold fetch, new_URL. now rewrite Hu. Qed.

End ErrorPayloads.

(** * The handler on concrete requests

    The requests of [Sample], parsed by [Sample.parse], on a network
    that answers every request ([Sample.reachable]) or none
    ([Sample.unreachable]). *)

Lemma preflight_short_circuits_witness :
  exists resp : Response.t,
    fetch Sample.parse Sample.preflight = Return resp /\
    (Response.status resp = 200%Z \/ Response.status resp = 204%Z) /\
    Response.body resp = None /\
    Headers.get (Response.headers resp) "Access-Control-Max-Age" = Some "86400".
Proof.
  destruct (preflight_short_circuits Sample.parse Sample.preflight
              (Sample.here "/https://api.example.com/users/42" "?x=1")
              eq_refl eq_refl)
    as (resp & Hf & Hs & Hb & _ & _ & _ & _ & Ha & _).
  exists resp. repeat split; assumption.
Defined.

Lemma root_greeting_witness :
  exists greeting : Response.t,
    fetch Sample.parse Sample.get_root = Return greeting /\
    Response.status greeting = 200%Z /\
    Response.text greeting = "Hello World".
Proof.
  destruct (root_greeting Sample.parse Sample.get_root (Sample.here "/" "")
              eq_refl eq_refl eq_refl)
    as (Hyes & _).
  destruct (Hyes eq_refl) as (greeting & Hf & Hs & _ & _ & Ht & _).
  exists greeting. repeat split; assumption.
Defined.

Lemma greeting_has_only_content_type_witness :
  exists resp : Response.t,
    fetch Sample.parse Sample.get_root = Return resp /\
    Response.headers resp = [("Content-Type", "text/plain; charset=utf-8")] /\
    Headers.has (Response.headers resp) "Access-Control-Allow-Origin" = false.
Proof.
  destruct (greeting_has_only_content_type Sample.parse Sample.get_root
              (Sample.here "/" "") eq_refl eq_refl eq_refl)
    as (resp & Hf & Hh & _ & Ha & _).
  exists resp. repeat split; assumption.
Defined.

Lemma invalid_url_rejected_witness :
  exists resp : Response.t,
    fetch Sample.parse Sample.get_not_a_url = Return resp /\
    Response.status resp = 400%Z /\
    Response.text resp
      = JSON.stringify
          [ ("error", "Invalid URL");
            ("message", "Please provide a valid URL to proxy");
            ("usage", "https://proxy.dev/https://example.com") ].
Proof.
  destruct (invalid_url_rejected Sample.parse Sample.get_not_a_url
              (Sample.here "/not-a-url" "") eq_refl eq_refl eq_refl eq_refl)
    as (resp & Hf & Hs & _ & _ & Ht & _).
  exists resp. repeat split; assumption.
Defined.

Lemma invalid_protocol_rejected_witness :
  exists resp : Response.t,
    fetch Sample.parse Sample.get_ftp = Return resp /\
    Response.status resp = 400%Z /\
    Response.text resp
      = JSON.stringify
          [ ("error", "Invalid Protocol");
            ("message", "Only HTTP and HTTPS protocols are supported") ].
Proof.
  destruct (invalid_protocol_rejected Sample.parse Sample.get_ftp
              (Sample.here "/ftp://files.example.com/a.txt" "") Sample.files
              eq_refl eq_refl eq_refl eq_refl)
    as (resp & Hf & Hs & _ & _ & Ht & _).
  - simpl. discriminate.
  - simpl. discriminate.
  - exists resp. repeat split; assumption.
Defined.

Lemma sample_resolves (method : string) (headers : Headers.t)
    (body : option ReadableStream) :
  (method =? "OPTIONS") = false ->
  resolves Sample.parse
    (Sample.request method "https://proxy.dev/https://api.example.com/users/42?x=1"
       headers body)
    (Sample.here "/https://api.example.com/users/42" "?x=1") Sample.api.
Proof. intros H. repeat split; try reflexivity. exact H. Defined.

Lemma outbound_headers_witness :
  exists init : RequestInit.t,
    dispatch_of (fetch Sample.parse Sample.get_users)
      = Some ("https://api.example.com/users/42?x=1", init) /\
    Headers.get (RequestInit.headers init) "X-Custom" = Some "v" /\
    Headers.get (RequestInit.headers init) "Accept" = Some "application/json" /\
    Headers.get (RequestInit.headers init) "Host" = Some "api.example.com" /\
    Headers.get (RequestInit.headers init) "Connection" = None /\
    Headers.get (RequestInit.headers init) "CF-Ray" = None.
Proof.
  destruct (outbound_headers Sample.parse Sample.get_users _ _
              (sample_resolves "GET" Sample.browser_headers None eq_refl))
    as (init & Hd & Hg).
  exists init. split; [exact Hd|]. rewrite !Hg. repeat split; reflexivity.
Defined.

Lemma outbound_body_witness :
  exists init : RequestInit.t,
    dispatch_of (fetch Sample.parse Sample.post_users)
      = Some ("https://api.example.com/users/42?x=1", init) /\
    RequestInit.method init = "POST" /\
    RequestInit.body init = Some [Byte.x7b; Byte.x7d].
Proof.
  destruct (outbound_body Sample.parse Sample.post_users _ _
              (sample_resolves "POST" Sample.browser_headers
                 (Some [Byte.x7b; Byte.x7d]) eq_refl))
    as (init & Hd & Hm & Hb & _).
  exists init. repeat split; assumption.
Defined.


Lemma dispatch_failure_caught_witness :
  exists resp : Response.t,
    outcome (run Sample.unreachable (fetch Sample.parse Sample.get_users)) = inr resp /\
    Response.status resp = 502%Z /\
    Response.json resp
      = Some [ ("error", "Proxy Error");
               ("message", "Network connection lost.");
               ("target", "https://api.example.com/users/42?x=1") ].
Proof.
  destruct (dispatch_failure_caught Sample.parse Sample.unreachable Sample.get_users _ _
              "https://api.example.com/users/42?x=1" Sample.forwarded_get_users
              (ErrorObject "Network connection lost.")
              (sample_resolves "GET" Sample.browser_headers None eq_refl)
              eq_refl eq_refl)
    as (resp & Hrun & Hs & _ & _ & _ & Hj).
  exists resp. rewrite Hrun. repeat split; assumption.
Defined.

Lemma error_payload_fields_witness :
  exists payload : JSON.object,
    Response.json Sample.bad_gateway = Some payload /\
    JSON.prop payload "target" = Some "https://api.example.com/users/42?x=1".
Proof.
  destruct (error_payload_fields Sample.parse Sample.unreachable Sample.get_users
              (Sample.here "/https://api.example.com/users/42" "?x=1")
              Sample.bad_gateway eq_refl eq_refl eq_refl eq_refl eq_refl)
    as (payload & Hj & _).
  exists payload. split; [exact Hj|].
  assert (E : Some payload = Some [ ("error", "Proxy Error");
                                    ("message", "Network connection lost.");
                                    ("target", "https://api.example.com/users/42?x=1") ]).
  { rewrite <- Hj. reflexivity. }
  injection E as ->. reflexivity.
Defined.

(** ** Where the code departs from a sentence of the specification *)


(** C2: two inbound [X-Tag] headers.  The last value is [b]; the
    outbound request carries both values, combined.  When the second
    value is empty, the combined value [a, ] is forwarded as [set]
    stores it, [a,]. *)
Lemma repeated_header_is_combined :
  (exists init : RequestInit.t,
      dispatch_of (fetch Sample.parse Sample.get_tagged)
        = Some ("https://api.example.com/users/42?x=1", init) /\
      Headers.values (Request.headers Sample.get_tagged) "X-Tag" = ["a"; "b"] /\
      Headers.entries (Request.headers Sample.get_tagged) = [("x-tag", "a, b")] /\
      last_value (Headers.values (Request.headers Sample.get_tagged) "X-Tag") = Some "b" /\
      Headers.get (RequestInit.headers init) "X-Tag" = Some "a, b" /\
      Headers.get (RequestInit.headers init) "X-Tag" <> Some "b")
  /\
  (exists init : RequestInit.t,
      dispatch_of (fetch Sample.parse Sample.get_tagged_empty)
        = Some ("https://api.example.com/users/42?x=1", init) /\
      Headers.entries (Request.headers Sample.get_tagged_empty) = [("x-tag", "a, ")] /\
      Headers.get (RequestInit.headers init) "X-Tag" = Some "a,").
Proof.
  split.
  - eexists. split; [reflexivity|]. repeat split. discriminate.
  - eexists. split; [reflexivity|]. repeat split.
Qed.

(** C3: a DELETE without a body.  The method is neither GET nor HEAD,
    yet the outbound request carries no body. *)
Lemma bodiless_delete_carries_no_body :
  exists init : RequestInit.t,
    dispatch_of (fetch Sample.parse Sample.delete_user)
      = Some ("https://api.example.com/users/42?x=1", init) /\
    RequestInit.method init = "DELETE" /\
    RequestInit.method init <> "GET" /\
    RequestInit.method init <> "HEAD" /\
    RequestInit.body init = None.
Proof.
  eexists. split; [reflexivity|]. repeat split; discriminate.
Qed.

(** C8: [GET /?x=1].  The path is [/], yet the answer is the 400 of an
    invalid target, not the greeting. *)
Lemma root_with_query_is_rejected :
  Sample.parse (Request.url Sample.get_root_query) = Some (Sample.here "/" "?x=1") /\
  URL.pathname (Sample.here "/" "?x=1") = "/" /\
  (Request.method Sample.get_root_query =? "OPTIONS") = false /\
  exists resp : Response.t,
    fetch Sample.parse Sample.get_root_query = Return resp /\
    Response.status resp = 400%Z /\
    Response.status resp <> 200%Z /\
    Response.text resp
      = JSON.stringify
          [ ("error", "Invalid URL");
            ("message", "Please provide a valid URL to proxy");
            ("usage", "https://proxy.dev/https://example.com") ] /\
    Response.text resp <> "Hello World".
Proof.
  repeat split. eexists. split; [reflexivity|].
  repeat split; discriminate.
Qed.

(** C9: a target with scheme [ftp].  The payload of the answer has the
    kind and the message, and neither a usage hint nor a target. *)
Lemma invalid_protocol_payload_has_no_context :
  exists (resp : Response.t) (payload : JSON.object),
    outcome (run Sample.reachable (fetch Sample.parse Sample.get_ftp)) = inr resp /\
    Response.status resp = 400%Z /\
    Response.json resp = Some payload /\
    JSON.prop payload "error" = Some "Invalid Protocol" /\
    JSON.prop payload "message" = Some "Only HTTP and HTTPS protocols are supported" /\
    JSON.prop payload "usage" = None /\
    JSON.prop payload "target" = None /\
    map fst payload = ["error"; "message"].
Proof.
  eexists. exists [ ("error", "Invalid Protocol");
                    ("message", "Only HTTP and HTTPS protocols are supported") ].
  split; [reflexivity|]. repeat split.
Qed.

(** * The handler as a whole

    What holds across the branches of [fetch]: when it dispatches, what
    it logs, how its answers can be told apart. *)

Section Whole.

Variable parseURL : string -> option URL.t.

Lemma run_bad_request_url (network : string -> RequestInit.t -> Settled)
    (req : Request.t) :
  parseURL (Request.url req) = None ->
  run network (fetch parseURL req)
  = {| outcome := inl (ErrorObject "Invalid URL"); dispatched := []; logged := [] |}.
Proof. intros Hu. unfold fetch, new_URL. now rewrite Hu. Qed.

Lemma resolves_unique (req : Request.t) (url url' target target' : URL.t) :
  resolves parseURL req url target -> resolves parseURL req url' target' ->
  url = url' /\ target = target'.
Proof.
  intros (Hu & _ & _ & Hp & _) (Hu' & _ & _ & Hp' & _).
  rewrite Hu in Hu'. injection Hu' as <-.
  rewrite Hp in Hp'. now injection Hp' as <-.
Qed.

Lemma handled (network : string -> RequestInit.t -> Settled)
    (req : Request.t) (url : URL.t) :
  parseURL (Request.url req) = Some url -> Handled parseURL network req url.
Proof.
  intros Hu.
  destruct (Request.method req =? "OPTIONS") eqn:Hm.
  { eapply HandledWithout.
    - intros target (_ & Hm' & _). congruence.
    - now rewrite (fetch_preflight parseURL req url Hu Hm).
    - reflexivity.
    - reflexivity. }
  destruct (effective_target url =? "") eqn:Ht.
  { eapply HandledWithout.
    - intros target (_ & _ & Ht' & _). congruence.
    - now rewrite (fetch_root parseURL req url Hu Hm Ht).
    - reflexivity.
    - reflexivity. }
  destruct (parseURL (effective_target url)) as [target|] eqn:Hp.
  2:{ eapply HandledWithout.
      - intros target (_ & _ & _ & Hp' & _). congruence.
      - now rewrite (fetch_invalid_url parseURL req url Hu Hm Ht Hp).
      - reflexivity.
      - reflexivity. }
  destruct (includes ["http:"; "https:"] (URL.protocol target)) eqn:Hs.
  2:{ eapply HandledWithout.
      - intros target' (_ & _ & _ & Hp' & Hs'). congruence.
      - now rewrite (fetch_invalid_protocol parseURL req url target Hu Hm Ht Hp Hs).
      - reflexivity.
      - reflexivity. }
  assert (H : resolves parseURL req url target) by now repeat split.
  destruct (dispatch_of_resolved parseURL req url target H) as (init & Hd).
  destruct (network (URL.href target) init) as [up|error] eqn:Hn.
  - destruct (Response.refusal up) as [error|] eqn:Hr.
    + eapply (HandledRefused parseURL network req url target init up error);
        try eassumption.
      * exact (run_refused parseURL network req url target _ _ up error H Hd Hn Hr).
      * reflexivity.
      * reflexivity.
      * eexists. apply json_FromString.
    + eapply (HandledFulfilled parseURL network req url target init up); try eassumption.
      * exact (run_fulfilled parseURL network req url target _ _ up H Hd Hn Hr).
      * cbn [Response.headers]. now rewrite overlay_get.
      * cbn [Response.headers]. now rewrite overlay_get.
  - eapply (HandledRejected parseURL network req url target init error); try eassumption.
    + exact (run_rejected parseURL network req url target _ _ error H Hd Hn).
    + reflexivity.
    + reflexivity.
    + eexists. apply json_FromString.
Qed.

(** ** Failures that escape *)

(** X1: the handler answers every request whose own URL parses, on
    every network; the only exception that escapes it is the one of
    line 7, thrown for a request URL that does not parse. *)
Theorem answers_unless_request_url_is_malformed
    (network : string -> RequestInit.t -> Settled) (req : Request.t) :
  (exists resp : Response.t, outcome (run network (fetch parseURL req)) = inr resp)
  <-> parseURL (Request.url req) <> None.
Proof.
  destruct (parseURL (Request.url req)) as [url|] eqn:Hu.
  - split; [discriminate|]. intros _.
    destruct (handled network req url Hu)
      as [resp _ Hr _ _|? ? ? resp _ _ _ _ Hr _ _|? ? ? ? resp _ _ _ _ Hr _ _ _
         |? ? ? resp _ _ _ Hr _ _ _];
      exists resp; now rewrite Hr.
  - rewrite (run_bad_request_url network req Hu). split.
    + intros [resp H]. discriminate H.
    + intros H. now contradiction H.
Qed.

(** ** Dispatching *)

(** X2: one request is dispatched at most once, whatever the network
    answers, and it is dispatched exactly when it passes target
    resolution. *)
Theorem dispatches_at_most_once
    (network : string -> RequestInit.t -> Settled) (req : Request.t) :
  length (dispatched (run network (fetch parseURL req))) <= 1 /\
  (dispatched (run network (fetch parseURL req)) <> []
   <-> exists url target : URL.t, resolves parseURL req url target).
Proof.
  destruct (parseURL (Request.url req)) as [url|] eqn:Hu.
  - destruct (handled network req url Hu)
      as [resp Hno Hr _ _|target ? ? resp H _ _ _ Hr _ _|target ? ? ? resp H _ _ _ Hr _ _ _
         |target ? ? resp H _ _ Hr _ _ _];
      rewrite Hr; cbn [dispatched length]; (split; [lia|]); split.
    + intros N. now contradiction N.
    + intros (url' & target & H). exfalso.
      assert (url' = url) as ->.
      { destruct H as (Hu' & _). rewrite Hu in Hu'. now injection Hu'. }
      exact (Hno target H).
    + intros _. now exists url, target.
    + discriminate.
    + intros _. now exists url, target.
    + discriminate.
    + intros _. now exists url, target.
    + discriminate.
  - rewrite (run_bad_request_url network req Hu). cbn [dispatched length].
    split; [lia|]. split.
    + intros N. now contradiction N.
    + intros (url & target & (Hu' & _)). congruence.
Qed.

(** X3: whatever is dispatched goes to the [href] of the resolved
    target, with the method of the inbound request and with redirects
    followed. *)
Theorem dispatch_is_addressed_to_target
    (network : string -> RequestInit.t -> Settled) (req : Request.t)
    (input : string) (init : RequestInit.t) :
  In (input, init) (dispatched (run network (fetch parseURL req))) ->
  RequestInit.redirect init = "follow" /\
  RequestInit.method init = Request.method req /\
  exists url target : URL.t,
    resolves parseURL req url target /\ input = URL.href target.
Proof.
  intros Hin.
  destruct (parseURL (Request.url req)) as [url|] eqn:Hu.
  2:{ rewrite (run_bad_request_url network req Hu) in Hin. destruct Hin. }
  assert (Hd : exists target, resolves parseURL req url target /\
                 dispatch_of (fetch parseURL req) = Some (input, init) /\
                 input = URL.href target).
  { destruct (handled network req url Hu)
      as [resp _ Hr _ _|target init' ? resp H Hd _ _ Hr _ _
         |target init' ? ? resp H Hd _ _ Hr _ _ _|target init' ? resp H Hd _ Hr _ _ _];
      rewrite Hr in Hin; cbn [dispatched] in Hin.
    - destruct Hin.
    - destruct Hin as [E|[]]. injection E as <- <-. now exists target.
    - destruct Hin as [E|[]]. injection E as <- <-. now exists target.
    - destruct Hin as [E|[]]. injection E as <- <-. now exists target. }
  destruct Hd as (target & H & Hd & ->).
  destruct (fetch_resolved parseURL req url target H) as (init0 & k & E & Ei & _).
  rewrite E in Hd. cbn [dispatch_of] in Hd. injection Hd as <-. subst init0.
  repeat split. now exists url, target.
Qed.

(** ** The console *)


(** ** Telling the answers apart *)


(** X6: the URL an answer reports is the URL that was fetched: the
    [X-Target-URL] header of a wrapped upstream response (stored, like
    every header value, without leading and trailing whitespace) and
    the [target] member of the payload of a failed dispatch are the
    address of the one outbound request. *)
Theorem reported_target_is_fetched_url
    (network : string -> RequestInit.t -> Settled) (req : Request.t)
    (resp : Response.t) (input : string) (init : RequestInit.t) :
  outcome (run network (fetch parseURL req)) = inr resp ->
  dispatched (run network (fetch parseURL req)) = [(input, init)] ->
  (Headers.get (Response.headers resp) "X-Proxied-By" <> None ->
   Headers.get (Response.headers resp) "X-Target-URL"
   = Some (Headers.normalize input)) /\
  (Headers.get (Response.headers resp) "X-Proxied-By" = None ->
   exists payload : JSON.object,
     Response.json resp = Some payload /\
     JSON.prop payload "error" = Some "Proxy Error" /\
     JSON.prop payload "target" = Some input).
Proof.
  intros Ho Hd.
  destruct (parseURL (Request.url req)) as [url|] eqn:Hu.
  2:{ rewrite (run_bad_request_url network req Hu) in Ho. discriminate Ho. }
  destruct (handled network req url Hu)
    as [resp' _ Hr _ _|target init' ? resp' _ _ Hn _ Hr Hx Ht
       |target init' ? ? resp' _ _ Hn _ Hr _ Hx (m & Hj)
       |target init' ? resp' _ _ Hn Hr _ Hx (m & Hj)];
    rewrite Hr in Ho, Hd; cbn [outcome dispatched] in *; injection Ho as <-.
  - discriminate Hd.
  - injection Hd as <- <-. split; [intros _; exact Ht|].
    intros N. rewrite N in Hx. discriminate Hx.
  - injection Hd as <- <-. split; [intros N; now contradiction N|].
    intros _. eexists. split; [exact Hj|]. split; reflexivity.
  - injection Hd as <- <-. split; [intros N; now contradiction N|].
    intros _. eexists. split; [exact Hj|]. split; reflexivity.
Qed.


(** X8: every answer allows every origin, with the one value [*]
    whatever the upstream response said, except the greeting of the
    root branch, which has no [Access-Control-Allow-Origin] at all. *)
Theorem allow_origin_everywhere_but_greeting
    (network : string -> RequestInit.t -> Settled) (req : Request.t)
    (url : URL.t) (resp : Response.t) :
  parseURL (Request.url req) = Some url ->
  outcome (run network (fetch parseURL req)) = inr resp ->
  Headers.get (Response.headers resp) "Access-Control-Allow-Origin"
  = if negb (Request.method req =? "OPTIONS") && (effective_target url =? "")
    then None else Some "*".
Proof.
  intros Hu Ho.
  destruct (Request.method req =? "OPTIONS") eqn:Hm.
  { rewrite (fetch_preflight parseURL req url Hu Hm) in Ho.
    cbn [run outcome] in Ho. now injection Ho as <-. }
  destruct (effective_target url =? "") eqn:Ht.
  { rewrite (fetch_root parseURL req url Hu Hm Ht) in Ho.
    cbn [run outcome] in Ho. now injection Ho as <-. }
  destruct (parseURL (effective_target url)) as [target|] eqn:Hp.
  2:{ rewrite (fetch_invalid_url parseURL req url Hu Hm Ht Hp) in Ho.
      cbn [run outcome] in Ho. now injection Ho as <-. }
  destruct (includes ["http:"; "https:"] (URL.protocol target)) eqn:Hs.
  2:{ rewrite (fetch_invalid_protocol parseURL req url target Hu Hm Ht Hp Hs) in Ho.
      cbn [run outcome] in Ho. now injection Ho as <-. }
  assert (H : resolves parseURL req url target) by now repeat split.
  destruct (dispatch_of_resolved parseURL req url target H) as (init & Hd).
  destruct (network (URL.href target) init) as [up|error] eqn:Hn.
  - destruct (Response.refusal up) as [error|] eqn:Hr.
    + rewrite (run_refused parseURL network req url target _ _ up error H Hd Hn Hr) in Ho.
      cbn [outcome] in Ho. now injection Ho as <-.
    + rewrite (run_fulfilled parseURL network req url target _ _ up H Hd Hn Hr) in Ho.
      cbn [outcome] in Ho. injection Ho as <-.
      cbn [Response.headers negb andb]. now rewrite overlay_get.
  - rewrite (run_rejected parseURL network req url target _ _ error H Hd Hn) in Ho.
    cbn [outcome] in Ho. now injection Ho as <-.
Qed.

(** ** An upstream response that cannot be wrapped *)

Lemma refusal_Some (up : Response.t) :
  (Response.status up < 200 \/ 599 < Response.status up \/
   (Response.body up <> None /\ In (Response.status up) [204; 205; 304]))%Z ->
  exists error, Response.refusal up = Some error.
Proof.
  intros [H|[H|[Hb Hs]]].
  - apply refusal_out_of_range. now left.
  - apply refusal_out_of_range. now right.
  - unfold Response.refusal, Response.check.
    destruct (negb ((200 <=? Response.status up)%Z && (Response.status up <=? 599)%Z));
      [now eexists|].
    destruct (Response.body up); [|now contradiction Hb]. cbn [andb].
    replace (Response.null_body_status (Response.status up)) with true; [now eexists|].
    symmetry. unfold Response.null_body_status.
    destruct Hs as [<-|[<-|[<-|[]]]]; reflexivity.
Qed.

(** X10: an upstream response that the constructor of line 107 refuses,
    because its status is outside 200 to 599 or because it has a body
    with the status 204, 205 or 304, is not passed on: the exception is
    caught like a failed fetch, and the answer is the 502 [Proxy Error]
    with the target's [href], without [X-Proxied-By] and
    [X-Target-URL], after one line on the console. *)
Theorem refused_upstream_is_answered_502
    (network : string -> RequestInit.t -> Settled)
    (req : Request.t) (url target : URL.t)
    (input : string) (init : RequestInit.t) (up : Response.t) :
  resolves parseURL req url target ->
  dispatch_of (fetch parseURL req) = Some (input, init) ->
  network input init = Fulfilled up ->
  (Response.status up < 200 \/ 599 < Response.status up \/
   (Response.body up <> None /\ In (Response.status up) [204; 205; 304]))%Z ->
  exists (resp : Response.t) (error : Thrown) (message : string),
    run network (fetch parseURL req)
      = {| outcome := inr resp;
           dispatched := [(input, init)];
           logged := [("Proxy error:", error)] |} /\
    Response.status resp = 502%Z /\
    Response.headers resp
      = [("Content-Type", "application/json"); ("Access-Control-Allow-Origin", "*")] /\
    Headers.get (Response.headers resp) "X-Proxied-By" = None /\
    Headers.get (Response.headers resp) "X-Target-URL" = None /\
    Response.json resp
      = Some [ ("error", "Proxy Error");
               ("message", message);
               ("target", URL.href target) ].
Proof.
  intros H Hd Hn Hbad. destruct (refusal_Some up Hbad) as (error & Hr).
  eexists. exists error. eexists.
  split; [exact (run_refused parseURL network req url target input init up error H Hd Hn Hr)|].
  repeat split. apply json_FromString.
Qed.

(** ** The outbound headers *)

Lemma In_names_delete (h : Headers.t) (n x : string) :
  In x (map (fun kv => toLowerCase (fst kv)) (Headers.delete h n)) ->
  In x (map (fun kv => toLowerCase (fst kv)) h).
Proof.
  unfold Headers.delete. rewrite !in_map_iff.
  intros (kv & E & I). apply filter_In in I. exists kv. now split.
Qed.

Lemma NoDup_names_delete (h : Headers.t) (n : string) :
  NoDup (map (fun kv => toLowerCase (fst kv)) h) ->
  NoDup (map (fun kv => toLowerCase (fst kv)) (Headers.delete h n)).
Proof.
  induction h as [|kv h IH]; [trivial|]. cbn [map]. intros N.
  inversion N as [|? ? Hx N']; subst. unfold Headers.delete in *. cbn [filter].
  destruct (negb (Headers.named n kv)); [|now apply IH].
  cbn [map]. constructor; [|now apply IH].
  intros I. apply Hx. exact (In_names_delete h n _ I).
Qed.

Lemma In_names_set_header (h : Headers.t) (n v x : string) :
  In x (map (fun kv => toLowerCase (fst kv)) (Headers.set_header h n v)) ->
  In x (map (fun kv => toLowerCase (fst kv)) h) \/ x = toLowerCase n.
Proof.
  induction h as [|[k w] h IH]; cbn [Headers.set_header map fst].
  - intros [E|[]]. now right.
  - destruct (Headers.same_name k n); cbn [map fst].
    + intros [E|I]; [left; now left|].
      left. right. exact (In_names_delete h n x I).
    + intros [E|I]; [left; now left|].
      destruct (IH I) as [I'|E]; [left; now right | now right].
Qed.

(** [set] keeps the names of a header list distinct. *)
Lemma NoDup_names_set_header (h : Headers.t) (n v : string) :
  NoDup (map (fun kv => toLowerCase (fst kv)) h) ->
  NoDup (map (fun kv => toLowerCase (fst kv)) (Headers.set_header h n v)).
Proof.
  induction h as [|[k w] h IH]; cbn [Headers.set_header map fst]; intros N.
  - constructor; [intros [] | constructor].
  - inversion N as [|? ? Hx N']; subst.
    destruct (Headers.same_name k n) eqn:Hkn; cbn [map fst]; constructor.
    + intros I. apply Hx. exact (In_names_delete h n _ I).
    + now apply NoDup_names_delete.
    + intros I. destruct (In_names_set_header h n v _ I) as [I'|E]; [now apply Hx|].
      apply HeadersFacts.same_name_neq in Hkn. now apply Hkn.
    + now apply IH.
Qed.

Lemma NoDup_names_set (h : Headers.t) (n v : string) :
  NoDup (map (fun kv => toLowerCase (fst kv)) h) ->
  NoDup (map (fun kv => toLowerCase (fst kv)) (Headers.set h n v)).
Proof. unfold Headers.set. apply NoDup_names_set_header. Qed.

Lemma NoDup_names_copy (es : list (string * string)) (h0 : Headers.t) :
  NoDup (map (fun kv => toLowerCase (fst kv)) h0) ->
  NoDup (map (fun kv => toLowerCase (fst kv)) (fold_left copy_header es h0)).
Proof.
  revert h0. induction es as [|[k v] es IH]; intros h0 N; [exact N|].
  cbn [fold_left]. apply IH. unfold copy_header.
  destruct (negb (includes skipped (toLowerCase k))); [|exact N].
  now apply NoDup_names_set.
Qed.

(** X9: the outbound request carries every header name once: no two
    of its headers have the same name, compared case-insensitively. *)
Theorem outbound_names_are_distinct (req : Request.t) (url target : URL.t) :
  resolves parseURL req url target ->
  exists init : RequestInit.t,
    dispatch_of (fetch parseURL req) = Some (URL.href target, init) /\
    NoDup (map (fun kv => toLowerCase (fst kv)) (RequestInit.headers init)) /\
    forall name : string,
      length (Headers.values (RequestInit.headers init) name) <= 1.
Proof.
  intros H. destruct (fetch_resolved parseURL req url target H)
    as (init & k & E & Ei & _).
  exists init. split; [now rewrite E|]. subst init. cbn [RequestInit.headers].
  assert (N : NoDup (map (fun kv => toLowerCase (fst kv))
                 (Headers.set
                    (fold_left copy_header (Headers.entries (Request.headers req))
                       (Headers.new []))
                    "Host" (URL.host target)))).
  { apply NoDup_names_set, NoDup_names_copy. constructor. }
  split; [exact N|]. intros name.
  rewrite HeadersFacts.values_set.
  destruct (Headers.same_name name "Host"); [cbn; lia|].
  remember (fold_left copy_header (Headers.entries (Request.headers req))
              (Headers.new [])) as h eqn:Eh.
  assert (Nh : NoDup (map (fun kv => toLowerCase (fst kv)) h)).
  { subst h. apply NoDup_names_copy. constructor. }
  clear -Nh. induction h as [|[k w] h IH]; [cbn; lia|].
  cbn [map fst] in Nh. inversion Nh as [|? ? Hx Nh']; subst.
  rewrite HeadersFacts.values_cons.
  destruct (Headers.same_name k name) eqn:Hk; [|now apply IH].
  replace (Headers.values h name) with (@nil string); [cbn; lia|].
  symmetry. apply HeadersFacts.values_not_named.
  intros I. apply Hx. apply HeadersFacts.In_names in I.
  destruct I as (kv & I & Ekv). apply in_map_iff. exists kv. split; [|exact I].
  apply HeadersFacts.same_name_eq in Hk. congruence.
Qed.

End Whole.

(** ** The whole handler on concrete requests *)

Lemma dispatch_is_addressed_to_target_witness :
  RequestInit.redirect Sample.forwarded_get_users = "follow" /\
  RequestInit.method Sample.forwarded_get_users = "GET" /\
  exists url target : URL.t,
    resolves Sample.parse Sample.get_users url target /\
    "https://api.example.com/users/42?x=1" = URL.href target.
Proof.
  exact (dispatch_is_addressed_to_target Sample.parse Sample.reachable Sample.get_users
           "https://api.example.com/users/42?x=1" Sample.forwarded_get_users
           (or_introl eq_refl)).
Defined.


Lemma reported_target_is_fetched_url_witness :
  exists payload : JSON.object,
    Response.json Sample.bad_gateway = Some payload /\
    JSON.prop payload "error" = Some "Proxy Error" /\
    JSON.prop payload "target" = Some "https://api.example.com/users/42?x=1".
Proof.
  exact (proj2 (reported_target_is_fetched_url Sample.parse Sample.unreachable
                  Sample.get_users Sample.bad_gateway
                  "https://api.example.com/users/42?x=1" Sample.forwarded_get_users
                  eq_refl eq_refl) eq_refl).
Defined.


Lemma allow_origin_everywhere_but_greeting_witness :
  Headers.get (Response.headers Sample.bad_gateway) "Access-Control-Allow-Origin"
  = Some "*".
Proof.
  exact (allow_origin_everywhere_but_greeting Sample.parse Sample.unreachable
           Sample.get_users (Sample.here "/https://api.example.com/users/42" "?x=1")
           Sample.bad_gateway eq_refl eq_refl).
Defined.

Lemma outbound_names_are_distinct_witness :
  exists init : RequestInit.t,
    dispatch_of (fetch Sample.parse Sample.get_tagged)
      = Some ("https://api.example.com/users/42?x=1", init) /\
    length (Headers.values (RequestInit.headers init) "X-Tag") <= 1.
Proof.
  destruct (outbound_names_are_distinct Sample.parse Sample.get_tagged _ _
              (sample_resolves "GET" [("X-Tag", "a"); ("X-Tag", "b")] None eq_refl))
    as (init & Hd & _ & Hv).
  exists init. split; [exact Hd | exact (Hv "X-Tag")].
Defined.

Lemma refused_upstream_is_answered_502_witness :
  exists (resp : Response.t) (error : Thrown),
    run Sample.denying (fetch Sample.parse Sample.get_users)
      = {| outcome := inr resp;
           dispatched := [("https://api.example.com/users/42?x=1",
                           Sample.forwarded_get_users)];
           logged := [("Proxy error:", error)] |} /\
    Response.status resp = 502%Z.
Proof.
  assert (Hbad : (Response.status Sample.upstream_999 < 200 \/
                  599 < Response.status Sample.upstream_999 \/
                  (Response.body Sample.upstream_999 <> None /\
                   In (Response.status Sample.upstream_999) [204; 205; 304]))%Z).
  { right. left. cbn. lia. }
  destruct (refused_upstream_is_answered_502 Sample.parse Sample.denying
              Sample.get_users _ _
              "https://api.example.com/users/42?x=1" Sample.forwarded_get_users
              Sample.upstream_999
              (sample_resolves "GET" Sample.browser_headers None eq_refl)
              eq_refl eq_refl Hbad)
    as (resp & error & message & Hrun & Hs & _).
  exists resp, error. now split.
Defined.
